(** * Face-recognition attendance loop: a model of
      attendance_system/core/face_recognition.py

    The Python class [FaceRecognitionProcessor] is embedded as a record of
    its instance attributes and one function per method.  Everything the
    methods obtain from outside (camera, file system, the Rekognition
    service, the two clocks, the key pressed in the window, the callback)
    is an explicit argument, so each method is a total function from the
    state and what the outside world answered to the new state, the
    returned value and the list of externally visible actions.

    Conventions.
    - Clock readings ([datetime.now()], [time.time()]) are integers counting
      microseconds; differences are exact.  [recognition_interval] and
      [text_duration] are in seconds, as in the source, and are scaled by
      [micro] where the source compares them with a difference of readings.
    - Similarity scores are rationals; the code only passes them on.
    - File names are byte strings; [lower] acts on the ASCII letters. *)

From Stdlib Require Import ZArith QArith Ascii String List Bool Lia.
From stdpp Require Import gmap strings list.
Import ListNotations.

Local Open Scope string_scope.
Local Open Scope list_scope.
Local Open Scope Z_scope.

(** ** Exceptions *)

(** [except Exception] handlers of the source do not look at the exception,
    so one constructor per raising site is enough to tell them apart. *)
Inductive exn : Type :=
  | EncodeError        (* cv2.imencode *)
  | ListDirError       (* os.listdir *)
  | FileError          (* open / read of a reference image *)
  | ServiceError       (* rekognition compare_faces *)
  | CallbackError      (* AttendanceRecord(...) or callback(record) *)
  | CameraError        (* camera.read / "Could not open camera" *)
  | DisplayError.      (* cv2.imshow / cv2.waitKey *)

Inductive result (A : Type) : Type :=
  | Ok (a : A)
  | Raise (e : exn).
Arguments Ok {A} a.
Arguments Raise {A} e.

(** ** Strings: the parts of [str] and [os.path] that the scan uses *)

Module Str.

Definition is_upper (c : ascii) : bool :=
  (65 <=? Z.of_N (N_of_ascii c)) && (Z.of_N (N_of_ascii c) <=? 90).

Definition lower_char (c : ascii) : ascii :=
  if is_upper c then ascii_of_N (N_of_ascii c + 32) else c.

(** [s.lower()] *)
Fixpoint lower (s : string) : string :=
  match s with
  | EmptyString => EmptyString
  | String c s' => String (lower_char c) (lower s')
  end.

(** [s.endswith(suffix)] for one suffix: some tail of [s] is [suffix]. *)
Fixpoint endswith (s suffix : string) : bool :=
  if String.eqb s suffix then true
  else match s with
       | EmptyString => false
       | String _ s' => endswith s' suffix
       end.

(** [s.endswith((a, b, ...))] *)
Definition endswith_any (s : string) (suffixes : list string) : bool :=
  existsb (endswith s) suffixes.

(** [s.rfind(c)] for a one-character [c]: the highest index of [c] in
    [s], or [-1]. *)
Fixpoint rfind (c : ascii) (s : string) : Z :=
  match s with
  | EmptyString => -1
  | String a s' =>
      let r := rfind c s' in
      if r =? -1 then (if Ascii.eqb a c then 0 else -1) else r + 1
  end.

(** [p[:i]] and [p[i:]] for [0 <= i <= len(p)] *)
Definition slice_to (i : Z) (p : string) : string :=
  substring 0 (Z.to_nat i) p.
Definition slice_from (i : Z) (p : string) : string :=
  substring (Z.to_nat i) (String.length p - Z.to_nat i) p.

(** The [while filenameIndex < dotIndex] loop of [genericpath._splitext]:
    [true] when it returns from inside the loop, that is when one of the
    [n] one-character slices from [filenameIndex] on is not the extension
    separator (a slice past the end is empty, hence not the separator). *)
Fixpoint non_dot_before (p : string) (filenameIndex n : nat) : bool :=
  match n with
  | O => false
  | S n' =>
      match String.get filenameIndex p with
      | Some c =>
          if negb (Ascii.eqb c "."%char) then true
          else non_dot_before p (S filenameIndex) n'
      | None => true
      end
  end.

(** [os.path.splitext(p)] ([posixpath]: [sep = "/"], no [altsep],
    [extsep = "."]). *)
Definition splitext (p : string) : string * string :=
  let sepIndex := rfind "/"%char p in
  let dotIndex := rfind "."%char p in
  if (dotIndex >? sepIndex)
     && non_dot_before p (Z.to_nat (sepIndex + 1))
                         (Z.to_nat (dotIndex - (sepIndex + 1)))
  then (slice_to dotIndex p, slice_from dotIndex p)
  else (p, EmptyString).

(** Every character of [s] is the extension separator. *)
Fixpoint all_dots (s : string) : bool :=
  match s with
  | EmptyString => true
  | String c s' => Ascii.eqb c "."%char && all_dots s'
  end.

(** [os.path.join(d, f)] for a directory [d] that ends in the separator
    and a relative [f]. *)
Definition join (d f : string) : string := (d ++ f)%string.

End Str.

(** ** Data *)

Definition bytes : Type := list Byte.byte.

(** A captured frame is only encoded, copied and shown; its pixels are
    never inspected. *)
Definition frame : Type := bytes.

(** Microseconds per second. *)
Definition micro : Z := 1000000.

(** Modelled from the spec: [AttendanceRecord] comes from
    [database/models.py], which is not part of the sources at hand.  The
    spec's Attendance Event has an identity code, a device identifier, a
    capture timestamp and a confidence score, and these are the four
    keyword arguments of the constructor call in [handle_recognition]. *)
Record AttendanceRecord : Type := {
  student_id : string;
  record_device_id : string;
  capture_timestamp : Z;
  confidence_score : Q
}.

(** What is kept of a [cv2.VideoCapture] object. *)
Record camera_handle : Type := {
  cam_index : Z;
  cam_opened : bool;
  cam_width : Z;
  cam_height : Z
}.

(** The instance attributes set by [__init__] (the Rekognition client is
    part of the environment of a match cycle, see [cycle_env]). *)
Record processor : Type := {
  device_id : string;
  recognition_interval : Z;
  last_recognition_times : gmap string Z;
  camera : option camera_handle;
  is_running : bool;
  faces_directory : string;
  last_recognition_text : option string;
  text_display_time : option Z;
  text_duration : Z
}.

Definition init (device : string) (interval : Z) : processor := {|
  device_id := device;
  recognition_interval := interval;
  last_recognition_times := ∅;
  camera := None;
  is_running := false;
  faces_directory := "faces/";
  last_recognition_text := None;
  text_display_time := None;
  text_duration := 2
|}.

Definition set_last_recognition_times (m : gmap string Z) (p : processor)
  : processor := {|
  device_id := device_id p;
  recognition_interval := recognition_interval p;
  last_recognition_times := m;
  camera := camera p;
  is_running := is_running p;
  faces_directory := faces_directory p;
  last_recognition_text := last_recognition_text p;
  text_display_time := text_display_time p;
  text_duration := text_duration p
|}.

Definition set_overlay (text : option string) (time : option Z)
  (p : processor) : processor := {|
  device_id := device_id p;
  recognition_interval := recognition_interval p;
  last_recognition_times := last_recognition_times p;
  camera := camera p;
  is_running := is_running p;
  faces_directory := faces_directory p;
  last_recognition_text := text;
  text_display_time := time;
  text_duration := text_duration p
|}.

Definition set_camera (c : option camera_handle) (p : processor)
  : processor := {|
  device_id := device_id p;
  recognition_interval := recognition_interval p;
  last_recognition_times := last_recognition_times p;
  camera := c;
  is_running := is_running p;
  faces_directory := faces_directory p;
  last_recognition_text := last_recognition_text p;
  text_display_time := text_display_time p;
  text_duration := text_duration p
|}.

Definition set_is_running (b : bool) (p : processor) : processor := {|
  device_id := device_id p;
  recognition_interval := recognition_interval p;
  last_recognition_times := last_recognition_times p;
  camera := camera p;
  is_running := b;
  faces_directory := faces_directory p;
  last_recognition_text := last_recognition_text p;
  text_display_time := text_display_time p;
  text_duration := text_duration p
|}.

(** ** The outside world *)

(** What one match cycle sees of the outside: the JPEG encoder, the
    directory listing, the content of the files, and the answer of
    [compare_faces] (with the fixed threshold and quality filter) given as
    the similarities of its ['FaceMatches'] list, in order. *)
Record cycle_env : Type := {
  imencode : frame -> result bytes;
  listdir : string -> result (list string);
  read_file : string -> result bytes;
  compare_faces : bytes -> bytes -> result (list Q)
}.

(** The callback handed to [run_recognition]: it returns or raises. *)
Definition callback_fn : Type := AttendanceRecord -> result unit.

(** Externally visible actions, in the order the code performs them. *)
Inductive action : Type :=
  | ReadFace (face_path : string)
  | CompareFaces (face_file : string)
  | LogMatch (enrollment_code : string) (similarity : Q)
  | LogCompareError (face_file : string)
  | LogScanError
  | LogFrameError
  | LogCaptureFailed
  | LogLoopError
  | Callback (record : AttendanceRecord)
  | ProcessFrame (current_time : Z)
  | DrawOverlay (text : string)
  | ShowFrame
  | Sleep
  | LogCameraStarted
  | LogCameraError
  | ReleaseCamera
  | DestroyAllWindows
  | LogStopped.

(** ** compare_with_stored_faces *)

Definition image_suffixes : list string := [".png"; ".jpg"; ".jpeg"].

(** The test of line 48, negated: the entry is taken as a reference image. *)
Definition is_reference (face_file : string) : bool :=
  Str.endswith_any (Str.lower face_file) image_suffixes.

(** Line 52. *)
Definition enrollment_code_of (face_file : string) : string :=
  fst (Str.splitext face_file).

(** [acts] happen, then what [r] stands for. *)
Definition then_ {A : Type} (acts : list action) (r : A * list action)
  : A * list action :=
  (fst r, acts ++ snd r).

(** The [for face_file in os.listdir(...)] loop, lines 47-76.  A result
    [Raise] is an exception that leaves the loop (a reference image that
    cannot be read); the inner [try] catches what [compare_faces] raises. *)
Fixpoint scan_faces (env : cycle_env) (dir : string) (frame_bytes : bytes)
  (files : list string) : result (option string * Q) * list action :=
  match files with
  | [] => (Ok (None, 0%Q), [])
  | face_file :: rest =>
      if negb (is_reference face_file) then
        scan_faces env dir frame_bytes rest
      else
        let enrollment_code := enrollment_code_of face_file in
        let face_path := Str.join dir face_file in
        match read_file env face_path with
        | Raise e => (Raise e, [ReadFace face_path])
        | Ok stored_face_bytes =>
            match compare_faces env frame_bytes stored_face_bytes with
            | Ok (similarity :: _) =>
                (Ok (Some enrollment_code, similarity),
                 [ReadFace face_path; CompareFaces face_file;
                  LogMatch enrollment_code similarity])
            | Ok [] =>
                then_ [ReadFace face_path; CompareFaces face_file]
                      (scan_faces env dir frame_bytes rest)
            | Raise _ =>
                then_ [ReadFace face_path; CompareFaces face_file;
                       LogCompareError face_file]
                      (scan_faces env dir frame_bytes rest)
            end
        end
  end.

(** Lines 39-82: the outer [try] turns every exception into
    [(None, 0)]. *)
Definition compare_with_stored_faces (env : cycle_env) (p : processor)
  (fr : frame) : (option string * Q) * list action :=
  match imencode env fr with
  | Raise _ => ((None, 0%Q), [LogScanError])
  | Ok frame_bytes =>
      match listdir env (faces_directory p) with
      | Raise _ => ((None, 0%Q), [LogScanError])
      | Ok files =>
          match scan_faces env (faces_directory p) frame_bytes files with
          | (Ok r, acts) => (r, acts)
          | (Raise _, acts) => ((None, 0%Q), acts ++ [LogScanError])
          end
      end
  end.

(** ** handle_recognition *)

(** The test of lines 89-91: the code is in the table and the time since
    its entry, in seconds, is less than the interval. *)
Definition in_cooldown (p : processor) (enrollment_code : string)
  (current_time : Z) : bool :=
  match last_recognition_times p !! enrollment_code with
  | Some last => current_time - last <? recognition_interval p * micro
  | None => false
  end.

(** Lines 84-106; [current_time] is what [datetime.now()] answers.  The
    table is written before the callback runs, so it keeps the new entry
    when the callback raises. *)
Definition handle_recognition (callback : callback_fn) (current_time : Z)
  (enrollment_code : string) (similarity : Q) (p : processor)
  : processor * list action * result unit :=
  if in_cooldown p enrollment_code current_time then (p, [], Ok tt)
  else
    let p' := set_last_recognition_times
                (<[enrollment_code := current_time]>
                   (last_recognition_times p)) p in
    let attendance_record := {|
      student_id := enrollment_code;
      record_device_id := device_id p;
      capture_timestamp := current_time;
      confidence_score := similarity |} in
    (p', [Callback attendance_record], callback attendance_record).

(** ** process_frame *)

(** Truth value of a [str]. *)
Definition truthy_str (s : string) : bool := negb (String.eqb s EmptyString).

Definition overlay_text (enrollment_code : string) : string :=
  ("Face Recognized: " ++ enrollment_code)%string.

(** Lines 108-121.  [dt_now] is the reading of [datetime.now()] in
    [handle_recognition], [t_now] the reading of [time.time()] on line
    116. *)
Definition process_frame (callback : callback_fn) (env : cycle_env)
  (dt_now t_now : Z) (fr : frame) (p : processor)
  : processor * list action * option string :=
  let '((enrollment_code, similarity), acts) :=
    compare_with_stored_faces env p fr in
  match enrollment_code with
  | Some code =>
      if truthy_str code then
        match handle_recognition callback dt_now code similarity p with
        | (p1, acts1, Ok _) =>
            (set_overlay (Some (overlay_text code)) (Some t_now) p1,
             acts ++ acts1, Some code)
        | (p1, acts1, Raise _) =>
            (p1, acts ++ acts1 ++ [LogFrameError], None)
        end
      else (p, acts, Some code)
  | None => (p, acts, None)
  end.

(** ** start_camera and stop *)

(** Lines 124-136; [opens] is what [camera.isOpened()] answers.  The
    attribute is assigned before the test, so it is set also when the
    method raises. *)
Definition start_camera (opens : bool) (camera_index : Z) (p : processor)
  : processor * list action * result unit :=
  let cam := {| cam_index := camera_index; cam_opened := opens;
                cam_width := 640; cam_height := 480 |} in
  let p' := set_camera (Some cam) p in
  if opens then (p', [LogCameraStarted], Ok tt)
  else (p', [LogCameraError], Raise CameraError).

Definition release (c : camera_handle) : camera_handle :=
  {| cam_index := cam_index c; cam_opened := false;
     cam_width := cam_width c; cam_height := cam_height c |}.

(** Lines 186-192. *)
Definition stop (p : processor) : processor * list action :=
  let p1 := set_is_running false p in
  match camera p1 with
  | Some c =>
      (set_camera (Some (release c)) p1,
       [ReleaseCamera; DestroyAllWindows; LogStopped])
  | None => (p1, [DestroyAllWindows; LogStopped])
  end.

(** ** run_recognition *)

(** What [self.camera.read()] does. *)
Inductive capture : Type :=
  | ReadRaises
  | ReadFailed                  (* ret is false *)
  | ReadFrame (fr : frame).

(** What the outside world answers during one pass through the loop body.
    [it_stop] says that [stop()] is called, from the callback or from
    elsewhere, at some point of this pass; the flag it clears is looked at
    when the [while] condition is evaluated next. *)
Record iteration_input : Type := {
  it_capture : capture;
  it_time : Z;               (* time.time(), line 151 *)
  it_env : cycle_env;
  it_dt_now : Z;             (* datetime.now(), line 86 *)
  it_text_time : Z;          (* time.time(), line 116 *)
  it_show : result Z;        (* imshow, then the key code of waitKey(1) *)
  it_stop : bool
}.

Inductive control : Type :=
  | Next          (* the end of the body is reached: sleep was called *)
  | Continue      (* the [continue] of line 148 *)
  | Break.        (* the [break] of line 178 *)

(** Truth value of a [float]. *)
Definition truthy_time (t : Z) : bool := negb (t =? 0).

(** Lines 157-171. *)
Definition overlay_step (current_time : Z) (p : processor)
  : processor * list action :=
  match last_recognition_text p, text_display_time p with
  | Some text, Some shown_at =>
      if truthy_str text && truthy_time shown_at then
        if current_time - shown_at <=? text_duration p * micro
        then (p, [DrawOverlay text])
        else (set_overlay None None p, [])
      else (p, [])
  | _, _ => (p, [])
  end.

(** Lines 150-155: the gate in front of the match cycle. *)
Definition cycle_due (p : processor) (last_process_time current_time : Z)
  : bool :=
  recognition_interval p * micro <=? current_time - last_process_time.

Definition gate_step (callback : callback_fn) (inp : iteration_input)
  (fr : frame) (p : processor) (last_process_time : Z)
  : processor * Z * list action :=
  let current_time := it_time inp in
  if cycle_due p last_process_time current_time then
    let '(p', acts, _) :=
      process_frame callback (it_env inp) (it_dt_now inp)
        (it_text_time inp) fr p in
    (p', current_time, ProcessFrame current_time :: acts)
  else (p, last_process_time, []).

(** [cv2.waitKey(1) & 0xFF == ord('q')] *)
Definition pressed_q (key : Z) : bool := Z.land key 255 =? 113.

(** One pass through the body of the [while], lines 144-184. *)
Definition loop_body (callback : callback_fn) (inp : iteration_input)
  (p : processor) (last_process_time : Z)
  : processor * Z * list action * control :=
  match it_capture inp with
  | ReadRaises => (p, last_process_time, [LogLoopError; Sleep], Next)
  | ReadFailed => (p, last_process_time, [LogCaptureFailed], Continue)
  | ReadFrame fr =>
      let '(p1, lpt1, acts1) :=
        gate_step callback inp fr p last_process_time in
      let '(p2, acts2) := overlay_step (it_time inp) p1 in
      match it_show inp with
      | Raise _ =>
          (p2, lpt1, acts1 ++ acts2 ++ [LogLoopError; Sleep], Next)
      | Ok key =>
          if pressed_q key
          then (p2, lpt1, acts1 ++ acts2 ++ [ShowFrame], Break)
          else (p2, lpt1, acts1 ++ acts2 ++ [ShowFrame; Sleep], Next)
      end
  end.

(** How the loop was left, or that it was not, after the passes whose
    inputs are given. *)
Inductive exit_status : Type :=
  | StillRunning
  | FlagCleared       (* [while self.is_running] found the flag false *)
  | KeyPressed.       (* [break] *)

Definition apply_stop (b : bool) (p : processor) : processor * list action :=
  if b then stop p else (p, []).

(** The [while self.is_running] loop, one input per pass. *)
Fixpoint run_loop (callback : callback_fn) (inputs : list iteration_input)
  (p : processor) (last_process_time : Z)
  : processor * Z * list action * exit_status :=
  if negb (is_running p) then (p, last_process_time, [], FlagCleared)
  else
    match inputs with
    | [] => (p, last_process_time, [], StillRunning)
    | inp :: rest =>
        let '(p1, lpt1, acts, ctl) :=
          loop_body callback inp p last_process_time in
        let '(p2, acts_stop) := apply_stop (it_stop inp) p1 in
        match ctl with
        | Break => (p2, lpt1, acts ++ acts_stop, KeyPressed)
        | _ =>
            let '(p3, lpt3, acts', st) := run_loop callback rest p2 lpt1 in
            (p3, lpt3, acts ++ acts_stop ++ acts', st)
        end
    end.

(** Lines 138-184; [started_at] is the reading of [time.time()] on line
    141. *)
Definition run_recognition (callback : callback_fn) (started_at : Z)
  (inputs : list iteration_input) (p : processor)
  : processor * Z * list action * exit_status :=
  run_loop callback inputs (set_is_running true p) started_at.

(** ** Reading a pass of the loop *)

(** A frame was captured in this pass. *)
Definition captured (inp : iteration_input) : bool :=
  match it_capture inp with
  | ReadFrame _ => true
  | _ => false
  end.

(** The frame was shown and the key read in the window is [q]. *)
Definition quits (inp : iteration_input) : bool :=
  match it_capture inp, it_show inp with
  | ReadFrame _, Ok key => pressed_q key
  | _, _ => false
  end.

(** The pass asks for the loop to end: [stop()] is called or [q] is
    pressed. *)
Definition asks_exit (inp : iteration_input) : bool :=
  it_stop inp || quits inp.

(** The actions that belong to a match cycle. *)
Definition inside_cycle (a : action) : bool :=
  match a with
  | ReadFace _ | CompareFaces _ | LogMatch _ _ | LogCompareError _
  | LogScanError | LogFrameError | Callback _ => true
  | _ => false
  end.

(** Each time of the list is at least [gap] after the one before it, the
    first one at least [gap] after [prev]. *)
Fixpoint spaced (gap prev : Z) (times : list Z) : Prop :=
  match times with
  | [] => True
  | t :: rest => gap <= t - prev /\ spaced gap t rest
  end.

(** ** Sequences of matches *)

(** A match handed to [handle_recognition]: the reading of
    [datetime.now()], the enrollment code and the similarity. *)
Record match_event : Type := {
  ev_time : Z;
  ev_code : string;
  ev_similarity : Q
}.

(** [handle_recognition] called once per match, in order.  What the
    callback raises is caught by the caller, [process_frame], and does not
    stop the matches that follow. *)
Fixpoint handle_all (callback : callback_fn) (events : list match_event)
  (p : processor) : processor * list action :=
  match events with
  | [] => (p, [])
  | ev :: rest =>
      let '(p1, acts, _) :=
        handle_recognition callback (ev_time ev) (ev_code ev)
          (ev_similarity ev) p in
      then_ acts (handle_all callback rest p1)
  end.

(** The record built on lines 98-103. *)
Definition record_of (p : processor) (enrollment_code : string)
  (current_time : Z) (similarity : Q) : AttendanceRecord := {|
  student_id := enrollment_code;
  record_device_id := device_id p;
  capture_timestamp := current_time;
  confidence_score := similarity
|}.

(** ** Observations on a list of actions *)

(** The reference files handed to the comparator, in order. *)
Definition compared (acts : list action) : list string :=
  omap (fun a => match a with CompareFaces f => Some f | _ => None end) acts.

(** The records the callback was called with, in order. *)
Definition callbacks (acts : list action) : list AttendanceRecord :=
  omap (fun a => match a with Callback r => Some r | _ => None end) acts.

(** The loop times at which a match cycle was started, in order. *)
Definition cycle_times (acts : list action) : list Z :=
  omap (fun a => match a with ProcessFrame t => Some t | _ => None end) acts.

(** The overlay texts drawn, in order. *)
Definition drawn (acts : list action) : list string :=
  omap (fun a => match a with DrawOverlay s => Some s | _ => None end) acts.

(** The comparator finds nothing for the reference [face_file], or
    raises. *)
Definition comparison_fails (env : cycle_env) (dir : string)
  (frame_bytes : bytes) (face_file : string) : Prop :=
  exists stored,
    read_file env (Str.join dir face_file) = Ok stored /\
    (compare_faces env frame_bytes stored = Ok [] \/
     exists e, compare_faces env frame_bytes stored = Raise e).

(** No call of the comparator on the reference [face_file] reports a
    match (the file may also be unreadable). *)
Definition reports_no_match (env : cycle_env) (dir : string)
  (frame_bytes : bytes) (face_file : string) : Prop :=
  forall stored,
    read_file env (Str.join dir face_file) = Ok stored ->
    forall similarity others,
      compare_faces env frame_bytes stored <> Ok (similarity :: others).

(** ** Inputs used to exercise the model *)

(** A faces directory with one entry that is not an image and three
    references: the service fails on the first, reports 92% for the second
    and would report 99% for the third. *)
Definition demo_listing : list string :=
  ["notes.txt"; "E050.png"; "E100.jpg"; "E200.jpeg"].

Definition demo_compare (frame_bytes stored : bytes) : result (list Q) :=
  let name := string_of_list_byte stored in
  if String.eqb name "faces/E050.png" then Raise ServiceError
  else if String.eqb name "faces/E100.jpg" then Ok [92%Q]
  else if String.eqb name "faces/E200.jpeg" then Ok [99%Q; 80%Q]
  else Ok [].

(** Every file holds its own path, so that the service can tell the
    references apart. *)
Definition demo_env : cycle_env := {|
  imencode := fun fr => Ok fr;
  listdir := fun _ => Ok demo_listing;
  read_file := fun path => Ok (list_byte_of_string path);
  compare_faces := demo_compare
|}.

(** The same directory when the service is down. *)
Definition down_env : cycle_env := {|
  imencode := fun fr => Ok fr;
  listdir := fun _ => Ok demo_listing;
  read_file := fun path => Ok (list_byte_of_string path);
  compare_faces := fun _ _ => Raise ServiceError
|}.

Definition demo_processor : processor := init "door-1" 5.

Definition demo_frame : frame := [].

Definition always_returns : callback_fn := fun _ => Ok tt.

Definition always_raises : callback_fn := fun _ => Raise CallbackError.

(** The processor five seconds of cooldown into which "E100" was accepted
    at time 0, and whose overlay has expired since. *)
Definition cooling_processor : processor :=
  set_last_recognition_times {[ "E100"%string := 0 ]} demo_processor.

(** Matches that follow an acceptance of "E100" at time 0: "E100" again
    after 3 s, "E200" after 4 s, "E100" after 4.9 s. *)
Definition demo_events : list match_event :=
  [ {| ev_time := 3000000; ev_code := "E100"; ev_similarity := 92%Q |};
    {| ev_time := 4000000; ev_code := "E200"; ev_similarity := 97%Q |};
    {| ev_time := 4900000; ev_code := "E100"; ev_similarity := 90%Q |} ].

(** A pass of the loop at time [t] in front of the demo directory; the
    clock is read again 0.2 s later inside the match cycle. *)
Definition demo_pass (t key : Z) (stop_called : bool) : iteration_input := {|
  it_capture := ReadFrame demo_frame;
  it_time := t;
  it_env := demo_env;
  it_dt_now := t + 200000;
  it_text_time := t + 200100;
  it_show := Ok key;
  it_stop := stop_called
|}.

(** A pass in which the camera gives no frame. *)
Definition failed_pass (t : Z) : iteration_input := {|
  it_capture := ReadFailed;
  it_time := t;
  it_env := demo_env;
  it_dt_now := t;
  it_text_time := t;
  it_show := Ok (-1);
  it_stop := false
|}.

(** ** What a run delivers, and what it keeps *)

(** The capture times of the records delivered for [code], in order. *)
Definition accepted_times (code : string) (acts : list action) : list Z :=
  List.map capture_timestamp
    (List.filter (fun r => String.eqb (student_id r) code) (callbacks acts)).

(** The times respect the cooldown: each is at least [gap] after the one
    before it, and the first at least [gap] after the table entry, when
    there is one. *)
Definition cooled (gap : Z) (entry : option Z) (times : list Z) : Prop :=
  match entry, times with
  | Some last, _ => spaced gap last times
  | None, [] => True
  | None, t :: rest => spaced gap t rest
  end.

(** Overlay text and overlay time stamp are both set or both unset. *)
Definition overlay_consistent (p : processor) : Prop :=
  last_recognition_text p = None <-> text_display_time p = None.

(** What a match cycle did to the cooldown table, seen from outside:
    nothing, with no record delivered, or one entry written at [now] for a
    code that was not in cooldown, with the one record of that code. *)
Definition cycle_effect (p p' : processor) (now : Z)
  (delivered : list AttendanceRecord) : Prop :=
  (delivered = [] /\ last_recognition_times p' = last_recognition_times p)
  \/ exists code similarity,
       in_cooldown p code now = false
       /\ delivered = [record_of p code now similarity]
       /\ last_recognition_times p'
          = <[code := now]> (last_recognition_times p).

(** The demo directory when the first reference cannot be opened. *)
Definition locked_env : cycle_env := {|
  imencode := fun fr => Ok fr;
  listdir := fun _ => Ok demo_listing;
  read_file := fun path =>
    if String.eqb path "faces/E050.png" then Raise FileError
    else Ok (list_byte_of_string path);
  compare_faces := demo_compare
|}.

(** The paths of the files opened, in order. *)
Definition opened (acts : list action) : list string :=
  omap (fun a => match a with ReadFace path => Some path | _ => None end)
       acts.

(** * Properties *)

(** ** The model on small inputs *)

Example splitext_plain : Str.splitext "E100.jpg" = ("E100", ".jpg").
Proof. reflexivity. Qed.

Example splitext_two_dots : Str.splitext "a.b.PNG" = ("a.b", ".PNG").
Proof. reflexivity. Qed.

Example splitext_dotfile : Str.splitext ".cshrc" = (".cshrc", EmptyString).
Proof. reflexivity. Qed.

Example is_reference_upper : is_reference "E100.JPEG" = true.
Proof. reflexivity. Qed.

Example is_reference_text : is_reference "notes.txt" = false.
Proof. reflexivity. Qed.

Example scan_demo :
  compare_with_stored_faces demo_env demo_processor demo_frame
  = ((Some "E100", 92%Q),
     [ReadFace "faces/E050.png"; CompareFaces "E050.png";
      LogCompareError "E050.png";
      ReadFace "faces/E100.jpg"; CompareFaces "E100.jpg";
      LogMatch "E100" 92%Q]).
Proof. reflexivity. Qed.

(** The example of the specification: interval 5 s, "E100" matched at 0 s,
    3 s and 6 s.  The first and the third match reach the callback. *)
Example cooldown_example :
  callbacks
    (snd (handle_all always_returns
            [ {| ev_time := 0; ev_code := "E100"; ev_similarity := 92%Q |};
              {| ev_time := 3000000; ev_code := "E100";
                 ev_similarity := 92%Q |};
              {| ev_time := 6000000; ev_code := "E100";
                 ev_similarity := 92%Q |} ]
            demo_processor))
  = [record_of demo_processor "E100" 0 92%Q;
     record_of demo_processor "E100" 6000000 92%Q].
Proof. reflexivity. Qed.

(** ** The scan of the reference directory *)

Section Scan.

Variable env : cycle_env.
Variable dir : string.
Variable frame_bytes : bytes.

Lemma compared_app (a b : list action) :
  compared (a ++ b) = compared a ++ compared b.
Proof. unfold compared. apply omap_app. Qed.

Lemma scan_skips_other_entry (face_file : string) (rest : list string) :
  is_reference face_file = false ->
  scan_faces env dir frame_bytes (face_file :: rest)
  = scan_faces env dir frame_bytes rest.
Proof. intros H. simpl. now rewrite H. Qed.

Lemma scan_continues_after_failure (face_file : string)
  (rest : list string) :
  is_reference face_file = true ->
  comparison_fails env dir frame_bytes face_file ->
  exists acts,
    scan_faces env dir frame_bytes (face_file :: rest)
    = then_ acts (scan_faces env dir frame_bytes rest)
    /\ compared acts = [face_file].
Proof.
  intros Href (stored & Hread & Hcmp). simpl. rewrite Href, Hread. simpl.
  destruct Hcmp as [-> | [e ->]]; eexists; split; reflexivity.
Qed.

Lemma then_then {A : Type} (a b : list action) (r : A * list action) :
  then_ a (then_ b r) = then_ (a ++ b) r.
Proof. unfold then_. simpl. now rewrite app_assoc. Qed.

Lemma then_nil {A : Type} (r : A * list action) : then_ [] r = r.
Proof. now destruct r. Qed.

(** A prefix of entries none of which stops the scan is walked through:
    every reference in it is compared, the others are not. *)
Lemma scan_walks_prefix (pre rest : list string) :
  (forall g, In g pre -> is_reference g = true ->
             comparison_fails env dir frame_bytes g) ->
  exists acts,
    scan_faces env dir frame_bytes (pre ++ rest)
    = then_ acts (scan_faces env dir frame_bytes rest)
    /\ compared acts = List.filter is_reference pre.
Proof.
  induction pre as [|g pre IH]; intros Hpre.
  - exists []. split; [now rewrite then_nil | reflexivity].
  - destruct IH as (acts & Hscan & Hcmp).
    { intros h Hh. apply Hpre. now right. }
    destruct (is_reference g) eqn:Hg.
    + destruct (scan_continues_after_failure g (pre ++ rest) Hg)
        as (acts0 & Hscan0 & Hcmp0).
      { apply Hpre; [now left | exact Hg]. }
      exists (acts0 ++ acts). split.
      * change ((g :: pre) ++ rest) with (g :: (pre ++ rest)).
        now rewrite Hscan0, Hscan, then_then.
      * rewrite compared_app, Hcmp0, Hcmp. simpl. now rewrite Hg.
    + exists acts. split.
      * change ((g :: pre) ++ rest) with (g :: (pre ++ rest)).
        now rewrite scan_skips_other_entry.
      * simpl. now rewrite Hg.
Qed.

(** When no comparison reports a match the loop ends without one, or is
    left by an exception. *)
Lemma scan_without_match (files : list string) :
  Forall (reports_no_match env dir frame_bytes) files ->
  fst (scan_faces env dir frame_bytes files) = Ok (None, 0%Q) \/
  exists e, fst (scan_faces env dir frame_bytes files) = Raise e.
Proof.
  induction 1 as [|g files Hg _ IH]; [now left|].
  simpl. destruct (is_reference g); simpl; [|exact IH].
  destruct (read_file env (Str.join dir g)) as [stored|e] eqn:Hread;
    [|right; now exists e].
  destruct (compare_faces env frame_bytes stored) as [[|s l]|e] eqn:Hc;
    simpl; try exact IH.
  exfalso. exact (Hg stored Hread s l Hc).
Qed.

End Scan.

(** C3.  First match wins: when the listing is [pre ++ face_file :: post],
    no reference of [pre] yields a match and the comparator reports at least
    one match for [face_file], the scan returns the stem of [face_file] with
    the similarity of the first reported match, and the comparator was
    called on the references of [pre] and on [face_file] only; nothing of
    [post] is compared, whatever the service would have answered for it. *)
Theorem first_match_wins (env : cycle_env) (p : processor) (fr : frame)
  (frame_bytes : bytes) (pre : list string) (face_file : string)
  (post : list string) (stored : bytes) (similarity : Q) (others : list Q) :
  imencode env fr = Ok frame_bytes ->
  listdir env (faces_directory p) = Ok (pre ++ face_file :: post) ->
  (forall g, In g pre -> is_reference g = true ->
             comparison_fails env (faces_directory p) frame_bytes g) ->
  is_reference face_file = true ->
  read_file env (Str.join (faces_directory p) face_file) = Ok stored ->
  compare_faces env frame_bytes stored = Ok (similarity :: others) ->
  fst (compare_with_stored_faces env p fr)
  = (Some (enrollment_code_of face_file), similarity)
  /\ compared (snd (compare_with_stored_faces env p fr))
     = List.filter is_reference pre ++ [face_file].
Proof.
  intros Henc Hls Hpre Href Hread Hcmp.
  destruct (scan_walks_prefix env (faces_directory p) frame_bytes pre
              (face_file :: post) Hpre) as (acts & Hscan & Hacts).
  unfold compare_with_stored_faces. rewrite Henc, Hls, Hscan.
  simpl. rewrite Href, Hread, Hcmp. simpl. split; [reflexivity|].
  rewrite compared_app, Hacts. reflexivity.
Qed.

Lemma first_match_wins_witness :
  fst (compare_with_stored_faces demo_env demo_processor demo_frame)
  = (Some "E100", 92%Q)
  /\ compared (snd (compare_with_stored_faces demo_env demo_processor
                      demo_frame))
     = ["E050.png"; "E100.jpg"].
Proof.
  apply (first_match_wins demo_env demo_processor demo_frame demo_frame
           ["notes.txt"; "E050.png"] "E100.jpg" ["E200.jpeg"]
           (list_byte_of_string "faces/E100.jpg") 92%Q []).
  - reflexivity.
  - reflexivity.
  - intros g [<-|[<-|[]]] Hg.
    + discriminate Hg.
    + exists (list_byte_of_string "faces/E050.png").
      split; [reflexivity|]. right. exists ServiceError. reflexivity.
  - reflexivity.
  - reflexivity.
  - reflexivity.
Defined.

(** C4.  A comparator call that raises for one reference is caught and the
    scan goes on with the entries after it exactly as it would have from
    there; and when no comparison reports a match (each finds nothing or
    raises, a reference may even be unreadable) the match cycle returns
    [(None, 0)].  The function returns a value in every case: all its
    exceptions are caught. *)
Theorem comparator_error_is_skipped (env : cycle_env) (p : processor)
  (fr : frame) :
  (forall frame_bytes face_file rest stored e,
      is_reference face_file = true ->
      read_file env (Str.join (faces_directory p) face_file) = Ok stored ->
      compare_faces env frame_bytes stored = Raise e ->
      scan_faces env (faces_directory p) frame_bytes (face_file :: rest)
      = then_ [ReadFace (Str.join (faces_directory p) face_file);
               CompareFaces face_file; LogCompareError face_file]
              (scan_faces env (faces_directory p) frame_bytes rest))
  /\ ((forall frame_bytes files,
          imencode env fr = Ok frame_bytes ->
          listdir env (faces_directory p) = Ok files ->
          Forall (reports_no_match env (faces_directory p) frame_bytes)
                 files) ->
      fst (compare_with_stored_faces env p fr) = (None, 0%Q))
  /\ (forall frame_bytes files,
         imencode env fr = Ok frame_bytes ->
         listdir env (faces_directory p) = Ok files ->
         (forall g, In g files -> is_reference g = true ->
                    comparison_fails env (faces_directory p) frame_bytes g) ->
         compared (snd (compare_with_stored_faces env p fr))
         = List.filter is_reference files).
Proof.
  split; [|split].
  - intros frame_bytes face_file rest stored e Href Hread Hcmp.
    simpl. now rewrite Href, Hread, Hcmp.
  - intros Hnone. unfold compare_with_stored_faces.
    destruct (imencode env fr) as [frame_bytes|] eqn:Henc; [|reflexivity].
    destruct (listdir env (faces_directory p)) as [files|] eqn:Hls;
      [|reflexivity].
    specialize (Hnone frame_bytes files eq_refl eq_refl).
    destruct (scan_without_match env _ _ _ Hnone) as [H|[e H]];
      destruct (scan_faces env (faces_directory p) frame_bytes files)
        as [[r|e'] acts]; simpl in *; congruence.
  - intros frame_bytes files Henc Hls Hall.
    destruct (scan_walks_prefix env (faces_directory p) frame_bytes files
                [] Hall) as (acts & Hscan & Hacts).
    unfold compare_with_stored_faces. rewrite Henc, Hls.
    rewrite app_nil_r in Hscan. rewrite Hscan. simpl.
    now rewrite app_nil_r.
Qed.

Lemma comparator_error_is_skipped_witness :
  scan_faces demo_env "faces/" demo_frame ["E050.png"; "E100.jpg"]
  = then_ [ReadFace "faces/E050.png"; CompareFaces "E050.png";
           LogCompareError "E050.png"]
          (scan_faces demo_env "faces/" demo_frame ["E100.jpg"])
  /\ fst (compare_with_stored_faces down_env demo_processor demo_frame)
     = (None, 0%Q)
  /\ compared (snd (compare_with_stored_faces down_env demo_processor
                      demo_frame))
     = ["E050.png"; "E100.jpg"; "E200.jpeg"].
Proof.
  split; [|split].
  - apply (proj1 (comparator_error_is_skipped demo_env demo_processor
                    demo_frame)
             demo_frame "E050.png" ["E100.jpg"]
             (list_byte_of_string "faces/E050.png") ServiceError);
      reflexivity.
  - apply (proj1 (proj2 (comparator_error_is_skipped down_env demo_processor
                           demo_frame))).
    intros frame_bytes files _ Hls. injection Hls as <-.
    repeat constructor; intros stored _ s l H; discriminate H.
  - apply (proj2 (proj2 (comparator_error_is_skipped down_env demo_processor
                           demo_frame)) demo_frame demo_listing);
      [reflexivity | reflexivity |].
    intros g Hg _. exists (list_byte_of_string (Str.join "faces/" g)).
    split; [reflexivity|]. right. exists ServiceError. reflexivity.
Defined.

(** ** File names *)

Module StrFacts.
Import Str.

Lemma lower_char_dot (c : ascii) : lower_char c = "."%char -> c = "."%char.
Proof.
  destruct c as [[] [] [] [] [] [] [] []]; vm_compute; congruence.
Qed.

Lemma append_nil (s : string) : (EmptyString ++ s)%string = s.
Proof. reflexivity. Qed.

Lemma append_cons (c : ascii) (a b : string) :
  (String c a ++ b)%string = String c (a ++ b)%string.
Proof. reflexivity. Qed.

Lemma lower_app (a b : string) :
  lower (a ++ b)%string = (lower a ++ lower b)%string.
Proof. induction a as [|c a IH]; simpl; [reflexivity | now rewrite IH]. Qed.

(** A string whose lower-case form splits splits at the same place. *)
Lemma lower_split (f a b : string) :
  lower f = (a ++ b)%string ->
  exists f1 f2, f = (f1 ++ f2)%string /\ lower f1 = a /\ lower f2 = b.
Proof.
  revert f. induction a as [|c a IH]; intros f H.
  - exists EmptyString, f. auto.
  - destruct f as [|d f]; simpl in H; [discriminate|].
    injection H as Hc Hf. destruct (IH f Hf) as (f1 & f2 & -> & H1 & H2).
    exists (String d f1), f2. simpl. now rewrite Hc, H1.
Qed.

Lemma endswith_iff (s suffix : string) :
  endswith s suffix = true <-> exists pre, s = (pre ++ suffix)%string.
Proof.
  split.
  - induction s as [|c s IH].
    + destruct suffix; simpl; [|discriminate].
      intros _. now exists EmptyString.
    + cbn [endswith].
      destruct (String.eqb (String c s) suffix) eqn:E.
      * apply String.eqb_eq in E. intros _. exists EmptyString. now subst.
      * intros H. destruct (IH H) as [pre ->].
        now exists (String c pre).
  - intros [pre ->]. induction pre as [|c pre IH].
    + rewrite append_nil. destruct suffix; cbn [endswith];
        rewrite ?String.eqb_refl; reflexivity.
    + rewrite append_cons. cbn [endswith]. rewrite IH.
      now destruct (String.eqb _ suffix).
Qed.

Lemma rfind_ge (c : ascii) (s : string) : -1 <= rfind c s.
Proof.
  induction s as [|a s IH]; simpl; [lia|].
  destruct (Z.eqb_spec (rfind c s) (-1)); [destruct (Ascii.eqb a c)|]; lia.
Qed.

Lemma rfind_app_absent (c : ascii) (s1 s2 : string) :
  rfind c s2 = -1 -> rfind c (s1 ++ s2)%string = rfind c s1.
Proof. intros H. induction s1 as [|a s1 IH]; simpl; now rewrite ?IH. Qed.

Lemma rfind_app_present (c : ascii) (s1 s2 : string) :
  rfind c s2 <> -1 ->
  rfind c (s1 ++ s2)%string = Z.of_nat (String.length s1) + rfind c s2.
Proof.
  intros H. induction s1 as [|a s1 IH]; [rewrite append_nil; simpl; lia|].
  rewrite append_cons. cbn [rfind String.length]. rewrite IH.
  pose proof (rfind_ge c s2).
  destruct (Z.eqb_spec (Z.of_nat (String.length s1) + rfind c s2) (-1));
    lia.
Qed.

Lemma slice_to_app (s1 s2 : string) :
  slice_to (Z.of_nat (String.length s1)) (s1 ++ s2)%string = s1.
Proof.
  unfold slice_to. rewrite Nat2Z.id.
  induction s1 as [|a s1 IH]; simpl; [now destruct s2 | now rewrite IH].
Qed.

Lemma get_app_length (pre : string) (c : ascii) (t : string) :
  String.get (String.length pre) (pre ++ String c t)%string = Some c.
Proof. induction pre as [|a pre IH]; simpl; [reflexivity | exact IH]. Qed.

Lemma append_assoc (a b c : string) :
  ((a ++ b) ++ c)%string = (a ++ (b ++ c))%string.
Proof.
  induction a as [|x a IH]; [reflexivity|].
  now rewrite !append_cons, IH.
Qed.

Lemma length_snoc (pre : string) (c : ascii) :
  String.length (pre ++ String c EmptyString)%string = S (String.length pre).
Proof.
  induction pre as [|a pre IH]; [reflexivity|].
  rewrite append_cons. cbn [String.length]. now rewrite IH.
Qed.

(** The loop over the leading characters finds a character other than
    the separator exactly when there is one. *)
Lemma non_dot_before_app (pre s t : string) :
  non_dot_before (pre ++ s ++ t)%string (String.length pre)
                 (String.length s)
  = negb (all_dots s).
Proof.
  revert pre. induction s as [|c s IH]; intros pre; [reflexivity|].
  cbn [String.length non_dot_before all_dots].
  rewrite append_cons, get_app_length.
  destruct (Ascii.eqb c ".") eqn:E; simpl; [|reflexivity].
  rewrite <- (length_snoc pre c).
  replace (pre ++ String c (s ++ t))%string
    with ((pre ++ String c EmptyString) ++ s ++ t)%string
    by (now rewrite append_assoc).
  apply IH.
Qed.

(** The shape of an extension that the scan accepts: a dot followed by
    characters none of which is a dot or a slash. *)
Lemma image_suffix_shape (ext : string) :
  In (lower ext) [".png"; ".jpg"; ".jpeg"]%string ->
  exists rest, ext = String "." rest
               /\ rfind "." rest = -1 /\ rfind "/" rest = -1.
Proof.
  assert (Hnd : forall c l, lower_char c = l ->
                 Ascii.eqb l "." = false -> Ascii.eqb l "/" = false ->
                 Ascii.eqb c "." = false /\ Ascii.eqb c "/" = false).
  { intros c l <- H1 H2. split.
    - destruct (Ascii.eqb_spec c "."); [subst; discriminate H1|reflexivity].
    - destruct (Ascii.eqb_spec c "/"); [subst; discriminate H2|reflexivity]. }
  intros [H|[H|[H|[]]]]; symmetry in H;
    repeat (destruct ext as [|? ext]; simpl in H; try discriminate H);
    injection H; clear H; intros;
    match goal with
    | H : lower_char ?c = "."%char |- _ =>
        apply lower_char_dot in H; subst c
    end;
    eexists; (split; [reflexivity|]).
  all: repeat match goal with
       | H : lower_char ?c = _ |- _ =>
           apply Hnd in H; [destruct H as [? ?]|reflexivity|reflexivity]
       end.
  all: simpl; repeat match goal with H : Ascii.eqb _ _ = false |- _ =>
                  rewrite H; clear H end; split; reflexivity.
Qed.

End StrFacts.

(** C9 (amended).  An entry is taken as a reference image exactly when its
    name is some [stem] followed by an extension whose lower-case form is
    [.png], [.jpg] or [.jpeg]; any other entry is passed over without being
    read, compared or logged.  For a reference whose name holds no path
    separator the enrollment code is [stem] when [stem] has a character
    other than the dot, and the whole file name when [stem] is empty or
    made of dots only. *)
Theorem reference_entries (env : cycle_env) (dir : string)
  (frame_bytes : bytes) (face_file : string) (rest : list string) :
  (is_reference face_file = true <->
   exists stem ext, face_file = (stem ++ ext)%string
                    /\ In (Str.lower ext) image_suffixes)
  /\ (is_reference face_file = false ->
      scan_faces env dir frame_bytes (face_file :: rest)
      = scan_faces env dir frame_bytes rest)
  /\ (forall stem ext,
         face_file = (stem ++ ext)%string ->
         In (Str.lower ext) image_suffixes ->
         Str.rfind "/" stem = -1 ->
         enrollment_code_of face_file
         = if Str.all_dots stem then face_file else stem).
Proof.
  split; [|split].
  - unfold is_reference, Str.endswith_any. rewrite existsb_exists. split.
    + intros (suffix & Hin & Hends).
      apply StrFacts.endswith_iff in Hends. destruct Hends as [pre Hpre].
      destruct (StrFacts.lower_split _ _ _ Hpre) as (f1 & f2 & -> & _ & H2).
      exists f1, f2. split; [reflexivity | now rewrite H2].
    + intros (stem & ext & -> & Hin).
      exists (Str.lower ext). split; [exact Hin|].
      apply StrFacts.endswith_iff. exists (Str.lower stem).
      apply StrFacts.lower_app.
  - apply scan_skips_other_entry.
  - intros stem ext -> Hext Hsep.
    destruct (StrFacts.image_suffix_shape ext Hext)
      as (tail & -> & Hdot & Hslash).
    unfold enrollment_code_of, Str.splitext.
    assert (Hs : Str.rfind "/" (stem ++ String "." tail)%string = -1).
    { rewrite StrFacts.rfind_app_absent; [exact Hsep|].
      simpl. now rewrite Hslash. }
    assert (Hd : Str.rfind "." (stem ++ String "." tail)%string
                 = Z.of_nat (String.length stem)).
    { rewrite StrFacts.rfind_app_present; simpl; rewrite Hdot; simpl; lia. }
    rewrite Hs, Hd.
    replace (Z.of_nat (String.length stem) >? -1) with true
      by (symmetry; apply Z.gtb_lt; lia).
    replace (Z.to_nat (Z.of_nat (String.length stem) - (-1 + 1)))
      with (String.length stem) by lia.
    change (Z.to_nat (-1 + 1)) with (String.length EmptyString).
    rewrite <- (StrFacts.append_nil (stem ++ String "." tail)%string) at 1.
    rewrite StrFacts.non_dot_before_app.
    destruct (Str.all_dots stem); simpl; [reflexivity|].
    apply StrFacts.slice_to_app.
Qed.

Lemma reference_entries_witness :
  enrollment_code_of "E100.JPG" = "E100"
  /\ is_reference "E100.JPG" = true
  /\ scan_faces demo_env "faces/" demo_frame ["notes.txt"; "E100.jpg"]
     = scan_faces demo_env "faces/" demo_frame ["E100.jpg"].
Proof.
  split; [|split].
  - apply (proj2 (proj2 (reference_entries demo_env "faces/" demo_frame
                           "E100.JPG" [])) "E100" ".JPG").
    + reflexivity.
    + right; left; reflexivity.
    + reflexivity.
  - apply (proj1 (reference_entries demo_env "faces/" demo_frame
                    "E100.JPG" [])).
    exists "E100"%string, ".JPG"%string.
    split; [reflexivity | right; left; reflexivity].
  - apply (proj1 (proj2 (reference_entries demo_env "faces/" demo_frame
                           "notes.txt" ["E100.jpg"]))).
    reflexivity.
Defined.

(** C9 as stated fails for a file called [.jpg]: it is taken as a
    reference, and its enrollment code is not what is left of the name
    when the extension is removed (the empty string) but the whole name. *)
Lemma dotfile_keeps_extension :
  In (Str.lower ".jpg") image_suffixes
  /\ is_reference (EmptyString ++ ".jpg")%string = true
  /\ enrollment_code_of (EmptyString ++ ".jpg")%string <> EmptyString
  /\ enrollment_code_of (EmptyString ++ ".jpg")%string = ".jpg"%string.
Proof.
  split; [right; left; reflexivity|].
  split; [reflexivity|]. split; [discriminate | reflexivity].
Qed.

(** ** The cooldown gate *)

Section Cooldown.

Variable callback : callback_fn.

Lemma callbacks_app (a b : list action) :
  callbacks (a ++ b) = callbacks a ++ callbacks b.
Proof. unfold callbacks. apply omap_app. Qed.

Lemma handle_suppressed (p : processor) (code : string) (now : Z)
  (similarity : Q) :
  in_cooldown p code now = true ->
  handle_recognition callback now code similarity p = (p, [], Ok tt).
Proof. intros H. unfold handle_recognition. now rewrite H. Qed.

Lemma handle_accepted (p : processor) (code : string) (now : Z)
  (similarity : Q) :
  in_cooldown p code now = false ->
  handle_recognition callback now code similarity p
  = (set_last_recognition_times
       (<[code := now]> (last_recognition_times p)) p,
     [Callback (record_of p code now similarity)],
     callback (record_of p code now similarity)).
Proof. intros H. unfold handle_recognition. now rewrite H. Qed.

Lemma handle_keeps_interval (p : processor) (code : string) (now : Z)
  (similarity : Q) :
  recognition_interval
    (fst (fst (handle_recognition callback now code similarity p)))
  = recognition_interval p.
Proof.
  unfold handle_recognition. now destruct (in_cooldown p code now).
Qed.

Lemma in_cooldown_within (p : processor) (code : string) (last now : Z) :
  last_recognition_times p !! code = Some last ->
  now - last < recognition_interval p * micro ->
  in_cooldown p code now = true.
Proof.
  intros Hl Hlt. unfold in_cooldown. rewrite Hl. now apply Z.ltb_lt.
Qed.

Lemma in_cooldown_elapsed (p : processor) (code : string) (last now : Z) :
  last_recognition_times p !! code = Some last ->
  recognition_interval p * micro <= now - last ->
  in_cooldown p code now = false.
Proof.
  intros Hl Hle. unfold in_cooldown. rewrite Hl. now apply Z.ltb_ge.
Qed.

(** While every match of [code] falls inside the window opened at
    [last], the entry of [code] stays and no record of [code] reaches the
    callback; matches of other codes go their own way. *)
Lemma window_is_quiet (code : string) (last : Z)
  (events : list match_event) :
  forall p : processor,
    last_recognition_times p !! code = Some last ->
    (forall ev, In ev events -> ev_code ev = code ->
                ev_time ev - last < recognition_interval p * micro) ->
    last_recognition_times (fst (handle_all callback events p)) !! code
    = Some last
    /\ recognition_interval (fst (handle_all callback events p))
       = recognition_interval p
    /\ device_id (fst (handle_all callback events p)) = device_id p
    /\ Forall (fun r => student_id r <> code)
              (callbacks (snd (handle_all callback events p))).
Proof.
  induction events as [|ev events IH]; intros p Hlast Hwin.
  - simpl. repeat split; auto.
  - cbn [handle_all].
    destruct (String.eqb_spec (ev_code ev) code) as [Heq|Hne].
    + rewrite handle_suppressed.
      2:{ rewrite Heq. apply (in_cooldown_within p code last); [exact Hlast|].
          apply Hwin; [now left | exact Heq]. }
      unfold then_. simpl.
      apply IH; [exact Hlast|]. intros ev' Hin. apply Hwin. now right.
    + destruct (in_cooldown p (ev_code ev) (ev_time ev)) eqn:Hcool.
      * rewrite handle_suppressed by exact Hcool.
        unfold then_. simpl.
        apply IH; [exact Hlast|]. intros ev' Hin. apply Hwin. now right.
      * rewrite handle_accepted by exact Hcool.
        unfold then_. cbn [fst snd].
        set (p1 := set_last_recognition_times _ p).
        destruct (IH p1) as (H1 & H2 & H3 & H4).
        { subst p1. simpl. now rewrite lookup_insert_ne. }
        { intros ev' Hin. apply Hwin. now right. }
        repeat split; [exact H1 | exact H2 | exact H3 |].
        rewrite callbacks_app. apply Forall_app. split; [|exact H4].
        simpl. constructor; [exact Hne | constructor].
Qed.

End Cooldown.

(** C2.  Once a recognition of [code] is accepted at time [t], none of the
    matches of [code] handled less than [recognition_interval] seconds
    after [t] reaches the callback, however many there are and whatever
    other codes are matched in between; and a match of [code] handled
    [recognition_interval] seconds after [t] or later is accepted again. *)
Theorem cooldown_window (callback : callback_fn) (p : processor)
  (code : string) (similarity : Q) (t : Z) (events : list match_event)
  (t' : Z) (similarity' : Q) :
  in_cooldown p code t = false ->
  (forall ev, In ev events -> ev_code ev = code ->
              ev_time ev - t < recognition_interval p * micro) ->
  recognition_interval p * micro <= t' - t ->
  let p1 := fst (fst (handle_recognition callback t code similarity p)) in
  let p2 := fst (handle_all callback events p1) in
  callbacks (snd (fst (handle_recognition callback t code similarity p)))
  = [record_of p code t similarity]
  /\ Forall (fun r => student_id r <> code)
            (callbacks (snd (handle_all callback events p1)))
  /\ last_recognition_times p2 !! code = Some t
  /\ callbacks
       (snd (fst (handle_recognition callback t' code similarity' p2)))
     = [record_of p code t' similarity'].
Proof.
  intros Hacc Hwin Hlater p1 p2. subst p2 p1.
  rewrite (handle_accepted callback p code t similarity Hacc).
  cbn [fst snd].
  set (p1 := set_last_recognition_times _ p).
  assert (Hlast : last_recognition_times p1 !! code = Some t)
    by (subst p1; simpl; apply lookup_insert_eq).
  destruct (window_is_quiet callback code t events p1 Hlast)
    as (H1 & H2 & H3 & H4); [exact Hwin|].
  split; [reflexivity|]. split; [exact H4|]. split; [exact H1|].
  rewrite handle_accepted.
  - cbn [fst snd]. unfold record_of. now rewrite H3.
  - apply (in_cooldown_elapsed _ code t); [exact H1|].
    rewrite H2. exact Hlater.
Qed.

Lemma cooldown_window_witness :
  callbacks
    (snd (fst (handle_recognition always_returns 0 "E100" 92%Q
                 demo_processor)))
  = [record_of demo_processor "E100" 0 92%Q]
  /\ Forall (fun r => student_id r <> "E100"%string)
       (callbacks
          (snd (handle_all always_returns demo_events
                  (fst (fst (handle_recognition always_returns 0 "E100"
                               92%Q demo_processor))))))
  /\ last_recognition_times
       (fst (handle_all always_returns demo_events
               (fst (fst (handle_recognition always_returns 0 "E100" 92%Q
                            demo_processor))))) !! "E100"%string
     = Some 0
  /\ callbacks
       (snd (fst (handle_recognition always_returns 6000000 "E100" 95%Q
                    (fst (handle_all always_returns demo_events
                            (fst (fst (handle_recognition always_returns 0
                                         "E100" 92%Q demo_processor))))))))
     = [record_of demo_processor "E100" 6000000 95%Q].
Proof.
  apply (cooldown_window always_returns demo_processor "E100" 92%Q 0
           demo_events 6000000 95%Q).
  - reflexivity.
  - intros ev [<-|[<-|[<-|[]]]] Hc; simpl; unfold micro;
      try lia; discriminate Hc.
  - simpl. unfold micro. lia.
Defined.

(** ** What a match cycle returns and does *)

Section ProcessFrame.

Variable callback : callback_fn.
Variable env : cycle_env.

Lemma scan_no_callbacks (dir : string) (frame_bytes : bytes)
  (files : list string) :
  callbacks (snd (scan_faces env dir frame_bytes files)) = [].
Proof.
  induction files as [|f files IH]; [reflexivity|].
  simpl. destruct (is_reference f); simpl; [|exact IH].
  destruct (read_file env (Str.join dir f)); [|reflexivity].
  destruct (compare_faces env frame_bytes a) as [[|s l]|e];
    simpl; try reflexivity; exact IH.
Qed.

Lemma compare_no_callbacks (p : processor) (fr : frame) :
  callbacks (snd (compare_with_stored_faces env p fr)) = [].
Proof.
  unfold compare_with_stored_faces.
  destruct (imencode env fr) as [frame_bytes|]; [|reflexivity].
  destruct (listdir env (faces_directory p)) as [files|]; [|reflexivity].
  pose proof (scan_no_callbacks (faces_directory p) frame_bytes files) as H.
  destruct (scan_faces env (faces_directory p) frame_bytes files)
    as [[r|e] acts]; simpl in *; [exact H|].
  rewrite callbacks_app, H. reflexivity.
Qed.

(** The stem that [splitext] returns for a name that is not empty is not
    empty either. *)
Lemma splitext_stem_nonempty (name : string) :
  name <> EmptyString -> fst (Str.splitext name) <> EmptyString.
Proof.
  intros Hname. unfold Str.splitext.
  destruct (_ && _) eqn:Hc; simpl; [|exact Hname].
  apply andb_prop in Hc. destruct Hc as [_ Hloop].
  pose proof (StrFacts.rfind_ge "/" name) as Hsep.
  destruct (Z.to_nat (Str.rfind "." name - (Str.rfind "/" name + 1)))
    as [|k] eqn:Hk; [discriminate Hloop|].
  unfold Str.slice_to.
  destruct (Z.to_nat (Str.rfind "." name)) as [|d] eqn:Hd; [lia|].
  destruct name as [|c name]; [congruence|]. discriminate.
Qed.

Lemma reference_code_truthy (face_file : string) :
  is_reference face_file = true ->
  truthy_str (enrollment_code_of face_file) = true.
Proof.
  intros Href. unfold truthy_str, enrollment_code_of.
  apply negb_true_iff, String.eqb_neq, splitext_stem_nonempty.
  intros ->. discriminate Href.
Qed.

Lemma scan_code_truthy (dir : string) (frame_bytes : bytes)
  (files : list string) (code : string) (similarity : Q) :
  fst (scan_faces env dir frame_bytes files) = Ok (Some code, similarity) ->
  truthy_str code = true.
Proof.
  induction files as [|f files IH]; [discriminate|].
  simpl. destruct (is_reference f) eqn:Href; simpl; [|exact IH].
  destruct (read_file env (Str.join dir f)); [|discriminate].
  destruct (compare_faces env frame_bytes a) as [[|s l]|e];
    simpl; try exact IH.
  intros H. injection H as <- _. now apply reference_code_truthy.
Qed.

Lemma compare_code_truthy (p : processor) (fr : frame) (code : string)
  (similarity : Q) :
  fst (compare_with_stored_faces env p fr) = (Some code, similarity) ->
  truthy_str code = true.
Proof.
  unfold compare_with_stored_faces.
  destruct (imencode env fr) as [frame_bytes|]; [|discriminate].
  destruct (listdir env (faces_directory p)) as [files|]; [|discriminate].
  pose proof (scan_code_truthy (faces_directory p) frame_bytes files
                code similarity) as H.
  destruct (scan_faces env (faces_directory p) frame_bytes files)
    as [[r|e] acts]; simpl in *; [|discriminate].
  intros ->. now apply H.
Qed.

(** [process_frame] when the scan found [code]. *)
Lemma process_frame_found (dt_now t_now : Z) (fr : frame) (p : processor)
  (code : string) (similarity : Q) :
  fst (compare_with_stored_faces env p fr) = (Some code, similarity) ->
  process_frame callback env dt_now t_now fr p
  = match handle_recognition callback dt_now code similarity p with
    | (p1, acts1, Ok _) =>
        (set_overlay (Some (overlay_text code)) (Some t_now) p1,
         snd (compare_with_stored_faces env p fr) ++ acts1, Some code)
    | (p1, acts1, Raise _) =>
        (p1, snd (compare_with_stored_faces env p fr) ++ acts1
             ++ [LogFrameError], None)
    end.
Proof.
  intros Hfound. pose proof (compare_code_truthy p fr _ _ Hfound) as Ht.
  unfold process_frame.
  destruct (compare_with_stored_faces env p fr) as [[c s] acts].
  simpl in Hfound. injection Hfound as -> ->. simpl. now rewrite Ht.
Qed.

Lemma process_frame_not_found (dt_now t_now : Z) (fr : frame)
  (p : processor) :
  fst (fst (compare_with_stored_faces env p fr)) = None ->
  process_frame callback env dt_now t_now fr p
  = (p, snd (compare_with_stored_faces env p fr), None).
Proof.
  intros Hnone. unfold process_frame.
  destruct (compare_with_stored_faces env p fr) as [[c s] acts].
  simpl in Hnone. now subst c.
Qed.

End ProcessFrame.

(** C1 (amended).  A match of [code] handled less than
    [recognition_interval] seconds after the last accepted recognition of
    [code] does not reach the callback and leaves the whole cooldown table
    as it was; the overlay text and the overlay time stamp are nevertheless
    set for [code], as they are for an accepted match. *)
Theorem suppressed_match (callback : callback_fn) (env : cycle_env)
  (dt_now t_now : Z) (fr : frame) (p : processor) (code : string)
  (similarity : Q) (last : Z) :
  fst (compare_with_stored_faces env p fr) = (Some code, similarity) ->
  last_recognition_times p !! code = Some last ->
  dt_now - last < recognition_interval p * micro ->
  let out := process_frame callback env dt_now t_now fr p in
  callbacks (snd (fst out)) = []
  /\ last_recognition_times (fst (fst out)) = last_recognition_times p
  /\ last_recognition_text (fst (fst out)) = Some (overlay_text code)
  /\ text_display_time (fst (fst out)) = Some t_now.
Proof.
  intros Hfound Hlast Hwithin out. subst out.
  rewrite (process_frame_found callback env dt_now t_now fr p code
             similarity Hfound).
  rewrite handle_suppressed
    by (apply (in_cooldown_within p code last); assumption).
  cbn [fst snd]. rewrite app_nil_r, compare_no_callbacks.
  repeat split; reflexivity.
Qed.

Lemma suppressed_match_witness :
  let out := process_frame always_returns demo_env 3000000 3000250
               demo_frame cooling_processor in
  callbacks (snd (fst out)) = []
  /\ last_recognition_times (fst (fst out))
     = last_recognition_times cooling_processor
  /\ last_recognition_text (fst (fst out)) = Some (overlay_text "E100")
  /\ text_display_time (fst (fst out)) = Some 3000250.
Proof.
  apply (suppressed_match always_returns demo_env 3000000 3000250
           demo_frame cooling_processor "E100" 92%Q 0).
  - reflexivity.
  - reflexivity.
  - simpl. unfold micro. lia.
Defined.

(** C1 as stated fails: "E100" was accepted at time 0, the interval is 5 s
    and a frame matching "E100" is processed 3 s later.  The event is
    suppressed, and the overlay, which was empty, now shows "E100". *)
Lemma overlay_set_despite_cooldown :
  let p := cooling_processor in
  let p' := fst (fst (process_frame always_returns demo_env 3000000 3000250
                        demo_frame p)) in
  in_cooldown p "E100" 3000000 = true
  /\ ~ (last_recognition_text p' = last_recognition_text p
        /\ text_display_time p' = text_display_time p).
Proof.
  cbv zeta. split; [reflexivity|].
  intros [H _]. vm_compute in H. discriminate H.
Qed.

(** C10.  When the scan found [code], [process_frame] returns [code]
    whether the event was suppressed by the cooldown gate (the callback is
    not called) or accepted (the callback is called once and returns); it
    returns [None] exactly when the scan found nothing or an exception was
    raised while the match was handled. *)
Theorem process_frame_result (callback : callback_fn) (env : cycle_env)
  (dt_now t_now : Z) (fr : frame) (p : processor) :
  let found := fst (compare_with_stored_faces env p fr) in
  let out := process_frame callback env dt_now t_now fr p in
  (forall code, fst found = Some code ->
                in_cooldown p code dt_now = true ->
                snd out = Some code /\ callbacks (snd (fst out)) = [])
  /\ (forall code, fst found = Some code ->
                   in_cooldown p code dt_now = false ->
                   callback (record_of p code dt_now (snd found)) = Ok tt ->
                   snd out = Some code
                   /\ callbacks (snd (fst out))
                      = [record_of p code dt_now (snd found)])
  /\ (snd out = None <->
      fst found = None \/
      exists code e,
        fst found = Some code /\
        snd (handle_recognition callback dt_now code (snd found) p)
        = Raise e).
Proof.
  intros found out. subst found out.
  destruct (fst (compare_with_stored_faces env p fr)) as [[code|] sim]
    eqn:Hfound; cbn [fst snd].
  - rewrite (process_frame_found callback env dt_now t_now fr p code sim
               Hfound).
    split; [|split].
    + intros c Hc Hcool. injection Hc as <-.
      rewrite handle_suppressed by exact Hcool. cbn [fst snd].
      now rewrite app_nil_r, compare_no_callbacks.
    + intros c Hc Hcool Hcb. injection Hc as <-.
      rewrite handle_accepted by exact Hcool. rewrite Hcb. cbn [fst snd].
      now rewrite callbacks_app, compare_no_callbacks.
    + destruct (handle_recognition callback dt_now code sim p)
        as [[p1 acts1] [u|e]] eqn:Hh; cbn [fst snd]; split.
      * discriminate.
      * intros [H|(c & e & Hc & H)]; [discriminate H|].
        injection Hc as <-. rewrite Hh in H. discriminate H.
      * intros _. right. exists code, e. rewrite ?Hh. split; reflexivity.
      * reflexivity.
  - rewrite process_frame_not_found by (now rewrite Hfound).
    cbn [fst snd]. split; [intros c H; discriminate H|].
    split; [intros c H; discriminate H|].
    split; [now left | reflexivity].
Qed.

Lemma process_frame_result_witness :
  (snd (process_frame always_returns demo_env 3000000 3000250 demo_frame
          cooling_processor) = Some "E100"%string
   /\ callbacks (snd (fst (process_frame always_returns demo_env 3000000
                             3000250 demo_frame cooling_processor))) = [])
  /\ (snd (process_frame always_returns demo_env 6000000 6000250 demo_frame
             cooling_processor) = Some "E100"%string
      /\ callbacks (snd (fst (process_frame always_returns demo_env 6000000
                                6000250 demo_frame cooling_processor)))
         = [record_of cooling_processor "E100" 6000000 92%Q])
  /\ snd (process_frame always_raises demo_env 6000000 6000250 demo_frame
            cooling_processor) = None.
Proof.
  split; [|split].
  - apply (proj1 (process_frame_result always_returns demo_env 3000000
                    3000250 demo_frame cooling_processor) "E100"%string);
      reflexivity.
  - apply (proj1 (proj2 (process_frame_result always_returns demo_env
                           6000000 6000250 demo_frame cooling_processor))
             "E100"%string); reflexivity.
  - apply (proj2 (proj2 (process_frame_result always_raises demo_env
                           6000000 6000250 demo_frame cooling_processor))).
    right. exists "E100"%string, CallbackError. split; reflexivity.
Defined.

(** ** stop and start_camera *)

(** C5 (amended).  [stop()] followed by [start_camera()] leaves the cooldown
    table exactly as it was, and leaves the overlay text and its time stamp
    as they were too: neither method writes them.  The running flag is
    cleared. *)
Theorem restart_keeps_tables (opens : bool) (camera_index : Z)
  (p : processor) :
  let p' := fst (fst (start_camera opens camera_index (fst (stop p)))) in
  last_recognition_times p' = last_recognition_times p
  /\ last_recognition_text p' = last_recognition_text p
  /\ text_display_time p' = text_display_time p
  /\ is_running p' = false.
Proof.
  unfold start_camera, stop. simpl.
  destruct (camera p), opens; simpl; repeat split; reflexivity.
Qed.

(** C5 as stated fails: with "E100" on the overlay since time 100, the
    overlay is still there after [stop()] and [start_camera()]. *)
Lemma restart_keeps_overlay :
  let p := set_overlay (Some (overlay_text "E100")) (Some 100)
             cooling_processor in
  let p' := fst (fst (start_camera true 0 (fst (stop p)))) in
  last_recognition_times p' = last_recognition_times p
  /\ ~ (last_recognition_text p' = None /\ text_display_time p' = None).
Proof.
  cbv zeta. split; [reflexivity|].
  intros [H _]. vm_compute in H. discriminate H.
Qed.

(** ** The recognition loop *)

Section Loop.

Variable callback : callback_fn.

Lemma omap_all_none {A B : Type} (f : A -> option B) (l : list A) :
  Forall (fun a => f a = None) l -> omap f l = [].
Proof.
  induction 1 as [|a l Ha _ IH]; [reflexivity|].
  change (omap f (a :: l))
    with (match f a with Some y => y :: omap f l | None => omap f l end).
  now rewrite Ha, IH.
Qed.

Lemma scan_inside (env : cycle_env) (dir : string) (frame_bytes : bytes)
  (files : list string) :
  Forall (fun a => inside_cycle a = true)
         (snd (scan_faces env dir frame_bytes files)).
Proof.
  induction files as [|f files IH]; [constructor|].
  simpl. destruct (is_reference f); simpl; [|exact IH].
  destruct (read_file env (Str.join dir f)); [|repeat constructor].
  destruct (compare_faces env frame_bytes a) as [[|s l]|e]; simpl;
    repeat (constructor; [reflexivity|]); try exact IH. constructor.
Qed.

Lemma compare_inside (env : cycle_env) (p : processor) (fr : frame) :
  Forall (fun a => inside_cycle a = true)
         (snd (compare_with_stored_faces env p fr)).
Proof.
  unfold compare_with_stored_faces.
  destruct (imencode env fr) as [frame_bytes|]; [|repeat constructor].
  destruct (listdir env (faces_directory p)) as [files|];
    [|repeat constructor].
  pose proof (scan_inside env (faces_directory p) frame_bytes files) as H.
  destruct (scan_faces env (faces_directory p) frame_bytes files)
    as [[r|e] acts]; simpl in *; [exact H|].
  apply Forall_app. split; [exact H | repeat constructor].
Qed.

Lemma process_frame_inside (env : cycle_env) (dt_now t_now : Z)
  (fr : frame) (p : processor) :
  Forall (fun a => inside_cycle a = true)
         (snd (fst (process_frame callback env dt_now t_now fr p))).
Proof.
  pose proof (compare_inside env p fr) as H.
  unfold process_frame, handle_recognition.
  destruct (compare_with_stored_faces env p fr) as [[[code|] sim] acts];
    simpl in *; [|exact H].
  destruct (truthy_str code); simpl; [|exact H].
  destruct (in_cooldown p code dt_now); simpl.
  - now rewrite app_nil_r.
  - destruct (callback _); simpl; apply Forall_app;
      (split; [exact H | repeat constructor]).
Qed.

(** A match cycle writes neither the interval, nor the display
    duration, nor the running flag. *)
Lemma process_frame_keeps (env : cycle_env) (dt_now t_now : Z)
  (fr : frame) (p : processor) :
  let p' := fst (fst (process_frame callback env dt_now t_now fr p)) in
  recognition_interval p' = recognition_interval p
  /\ text_duration p' = text_duration p
  /\ is_running p' = is_running p.
Proof.
  unfold process_frame, handle_recognition.
  destruct (compare_with_stored_faces env p fr) as [[[code|] sim] acts];
    simpl; [|auto].
  destruct (truthy_str code); simpl; [|auto].
  destruct (in_cooldown p code dt_now); simpl; [auto|].
  destruct (callback _); simpl; auto.
Qed.

Lemma gate_step_due (inp : iteration_input) (fr : frame) (p : processor)
  (last_process_time : Z) :
  cycle_due p last_process_time (it_time inp) = true ->
  gate_step callback inp fr p last_process_time
  = (fst (fst (process_frame callback (it_env inp) (it_dt_now inp)
                 (it_text_time inp) fr p)),
     it_time inp,
     ProcessFrame (it_time inp)
       :: snd (fst (process_frame callback (it_env inp) (it_dt_now inp)
                      (it_text_time inp) fr p))).
Proof.
  intros H. unfold gate_step. rewrite H.
  now destruct (process_frame _ _ _ _ _ _) as [[p' acts] r].
Qed.

Lemma gate_step_not_due (inp : iteration_input) (fr : frame)
  (p : processor) (last_process_time : Z) :
  cycle_due p last_process_time (it_time inp) = false ->
  gate_step callback inp fr p last_process_time
  = (p, last_process_time, []).
Proof. intros H. unfold gate_step. now rewrite H. Qed.

Lemma gate_step_keeps (inp : iteration_input) (fr : frame) (p : processor)
  (last_process_time : Z) :
  let p' := fst (fst (gate_step callback inp fr p last_process_time)) in
  recognition_interval p' = recognition_interval p
  /\ text_duration p' = text_duration p
  /\ is_running p' = is_running p.
Proof.
  destruct (cycle_due p last_process_time (it_time inp)) eqn:H.
  - rewrite gate_step_due by exact H. apply process_frame_keeps.
  - rewrite gate_step_not_due by exact H. simpl. auto.
Qed.

Lemma gate_step_draws_nothing (inp : iteration_input) (fr : frame)
  (p : processor) (last_process_time : Z) :
  drawn (snd (gate_step callback inp fr p last_process_time)) = [].
Proof.
  destruct (cycle_due p last_process_time (it_time inp)) eqn:H.
  - rewrite gate_step_due by exact H. cbn [snd]. unfold drawn. simpl.
    apply omap_all_none.
    eapply Forall_impl; [apply process_frame_inside|].
    intros a Ha. now destruct a.
  - now rewrite gate_step_not_due by exact H.
Qed.

Lemma overlay_step_keeps (t : Z) (p : processor) :
  let p' := fst (overlay_step t p) in
  recognition_interval p' = recognition_interval p
  /\ is_running p' = is_running p.
Proof.
  unfold overlay_step.
  destruct (last_recognition_text p), (text_display_time p); simpl; auto.
  destruct (_ && _); simpl; auto. destruct (_ <=? _); simpl; auto.
Qed.

Lemma drawn_app (a b : list action) : drawn (a ++ b) = drawn a ++ drawn b.
Proof. unfold drawn. apply omap_app. Qed.

Lemma cycle_times_app (a b : list action) :
  cycle_times (a ++ b) = cycle_times a ++ cycle_times b.
Proof. unfold cycle_times. apply omap_app. Qed.

End Loop.

(** ** The overlay *)

Lemma overlay_text_truthy (code : string) :
  truthy_str (overlay_text code) = true.
Proof. reflexivity. Qed.

Lemma overlay_step_shown (t T : Z) (text : string) (p : processor) :
  last_recognition_text p = Some text -> truthy_str text = true ->
  text_display_time p = Some T -> T <> 0 ->
  t - T <= text_duration p * micro ->
  overlay_step t p = (p, [DrawOverlay text]).
Proof.
  intros Htext Htruthy Htime HT Hin. unfold overlay_step, truthy_time.
  rewrite Htext, Htime, Htruthy.
  destruct (Z.eqb_spec T 0); [contradiction|]. simpl.
  destruct (Z.leb_spec (t - T) (text_duration p * micro)); [reflexivity|lia].
Qed.

Lemma overlay_step_expired (t T : Z) (text : string) (p : processor) :
  last_recognition_text p = Some text -> truthy_str text = true ->
  text_display_time p = Some T -> T <> 0 ->
  text_duration p * micro < t - T ->
  overlay_step t p = (set_overlay None None p, []).
Proof.
  intros Htext Htruthy Htime HT Hout. unfold overlay_step, truthy_time.
  rewrite Htext, Htime, Htruthy.
  destruct (Z.eqb_spec T 0); [contradiction|]. simpl.
  destruct (Z.leb_spec (t - T) (text_duration p * micro)); [lia|reflexivity].
Qed.

(** C6.  Let the overlay text of [code] carry the time stamp [T] when the
    overlay step of a pass is reached (it was set in an earlier pass, or by
    the match cycle of this very pass).  If the loop time [t] of the pass
    satisfies [t - T <= text_duration] the text is drawn on the frame and
    the overlay state stays; if [t - T > text_duration] nothing is drawn,
    text and time stamp are cleared, and no later pass draws anything until
    a match sets them again.  [T] is a reading of [time.time()] and is
    taken to be different from 0, the one value that Python's truth test
    on line 158 would not tell from an unset time stamp. *)
Theorem overlay_window (callback : callback_fn) (inp : iteration_input)
  (fr : frame) (p : processor) (last_process_time : Z) (code : string)
  (T : Z) :
  it_capture inp = ReadFrame fr ->
  let p1 := fst (fst (gate_step callback inp fr p last_process_time)) in
  last_recognition_text p1 = Some (overlay_text code) ->
  text_display_time p1 = Some T ->
  T <> 0 ->
  let out := loop_body callback inp p last_process_time in
  let p' := fst (fst (fst out)) in
  (it_time inp - T <= text_duration p * micro ->
   drawn (snd (fst out)) = [overlay_text code]
   /\ last_recognition_text p' = Some (overlay_text code)
   /\ text_display_time p' = Some T)
  /\ (text_duration p * micro < it_time inp - T ->
      drawn (snd (fst out)) = []
      /\ last_recognition_text p' = None
      /\ text_display_time p' = None
      /\ forall t, overlay_step t p' = (p', [])).
Proof.
  intros Hcap p1 Htext Htime HT out p'. subst out p' p1.
  unfold loop_body. rewrite Hcap.
  pose proof (gate_step_draws_nothing callback inp fr p last_process_time)
    as Hdraw.
  pose proof (gate_step_keeps callback inp fr p last_process_time)
    as (_ & Hdur & _).
  destruct (gate_step callback inp fr p last_process_time)
    as [[p1 lpt1] acts1]. cbn [fst snd] in *.
  rewrite <- Hdur. split; intros Ht.
  - rewrite (overlay_step_shown _ T (overlay_text code) p1)
      by auto using overlay_text_truthy.
    destruct (it_show inp) as [key|e]; [destruct (pressed_q key)|];
      cbn [fst snd]; rewrite !drawn_app, Hdraw; auto.
  - rewrite (overlay_step_expired _ T (overlay_text code) p1)
      by auto using overlay_text_truthy.
    destruct (it_show inp) as [key|e]; [destruct (pressed_q key)|];
      cbn [fst snd]; rewrite !drawn_app, Hdraw; repeat split; auto.
Qed.

Lemma overlay_window_witness :
  let p := set_overlay (Some (overlay_text "E100")) (Some 1000000)
             cooling_processor in
  (drawn (snd (fst (loop_body always_returns (demo_pass 3000000 (-1) false)
                      p 0))) = [overlay_text "E100"]
   /\ last_recognition_text
        (fst (fst (fst (loop_body always_returns
                          (demo_pass 3000000 (-1) false) p 0))))
      = Some (overlay_text "E100")
   /\ text_display_time
        (fst (fst (fst (loop_body always_returns
                          (demo_pass 3000000 (-1) false) p 0))))
      = Some 1000000)
  /\ (drawn (snd (fst (loop_body always_returns
                         (demo_pass 3000001 (-1) false) p 0))) = []
      /\ last_recognition_text
           (fst (fst (fst (loop_body always_returns
                             (demo_pass 3000001 (-1) false) p 0))))
         = None
      /\ text_display_time
           (fst (fst (fst (loop_body always_returns
                             (demo_pass 3000001 (-1) false) p 0))))
         = None
      /\ forall t,
           overlay_step t
             (fst (fst (fst (loop_body always_returns
                               (demo_pass 3000001 (-1) false) p 0))))
           = (fst (fst (fst (loop_body always_returns
                               (demo_pass 3000001 (-1) false) p 0))), [])).
Proof.
  cbv zeta. split.
  - apply (proj1 (overlay_window always_returns
                    (demo_pass 3000000 (-1) false) demo_frame
                    (set_overlay (Some (overlay_text "E100")) (Some 1000000)
                       cooling_processor)
                    0 "E100" 1000000 eq_refl eq_refl eq_refl
                    ltac:(discriminate))).
    simpl. unfold micro. lia.
  - apply (proj2 (overlay_window always_returns
                    (demo_pass 3000001 (-1) false) demo_frame
                    (set_overlay (Some (overlay_text "E100")) (Some 1000000)
                       cooling_processor)
                    0 "E100" 1000000 eq_refl eq_refl eq_refl
                    ltac:(discriminate))).
    simpl. unfold micro. lia.
Defined.

(** ** The gate in front of the match cycle, and leaving the loop *)

Section Passes.

Variable callback : callback_fn.

Lemma overlay_step_starts_no_cycle (t : Z) (p : processor) :
  cycle_times (snd (overlay_step t p)) = [].
Proof.
  unfold overlay_step.
  destruct (last_recognition_text p), (text_display_time p);
    try reflexivity.
  destruct (_ && _); [|reflexivity]. now destruct (_ <=? _).
Qed.

Lemma process_frame_starts_no_cycle (env : cycle_env) (dt_now t_now : Z)
  (fr : frame) (p : processor) :
  cycle_times (snd (fst (process_frame callback env dt_now t_now fr p)))
  = [].
Proof.
  apply omap_all_none.
  eapply Forall_impl; [apply process_frame_inside|].
  intros a Ha. now destruct a.
Qed.

(** What one pass does about the match cycle. *)
Lemma loop_body_cycle (inp : iteration_input) (p : processor)
  (last_process_time : Z) :
  let out := loop_body callback inp p last_process_time in
  let runs := captured inp
              && cycle_due p last_process_time (it_time inp) in
  cycle_times (snd (fst out)) = (if runs then [it_time inp] else [])
  /\ snd (fst (fst out))
     = (if runs then it_time inp else last_process_time).
Proof.
  unfold loop_body, captured.
  destruct (it_capture inp) as [| |fr]; [now split | now split |].
  cbn [andb].
  pose proof (overlay_step_starts_no_cycle (it_time inp)) as Hov.
  destruct (cycle_due p last_process_time (it_time inp)) eqn:Hdue.
  - rewrite gate_step_due by exact Hdue.
    pose proof (process_frame_starts_no_cycle (it_env inp)
                  (it_dt_now inp) (it_text_time inp) fr p) as Hpf.
    destruct (process_frame _ _ _ _ _ _) as [[p1 acts1] r].
    cbn [fst snd] in *. specialize (Hov p1).
    destruct (overlay_step (it_time inp) p1) as [p2 acts2].
    cbn [snd] in Hov.
    destruct (it_show inp) as [key|e]; [destruct (pressed_q key)|];
      cbn [fst snd];
      change (ProcessFrame (it_time inp) :: acts1)
        with ([ProcessFrame (it_time inp)] ++ acts1);
      rewrite !cycle_times_app, Hpf, Hov; split; reflexivity.
  - rewrite gate_step_not_due by exact Hdue. specialize (Hov p).
    destruct (overlay_step (it_time inp) p) as [p2 acts2].
    cbn [snd] in Hov.
    destruct (it_show inp) as [key|e]; [destruct (pressed_q key)|];
      cbn [fst snd]; rewrite !cycle_times_app, Hov; split; reflexivity.
Qed.

Lemma loop_body_keeps (inp : iteration_input) (p : processor)
  (last_process_time : Z) :
  let p' := fst (fst (fst (loop_body callback inp p last_process_time))) in
  recognition_interval p' = recognition_interval p
  /\ is_running p' = is_running p.
Proof.
  unfold loop_body.
  destruct (it_capture inp) as [| |fr]; [now split | now split |].
  pose proof (gate_step_keeps callback inp fr p last_process_time)
    as (Hi & _ & Hr).
  destruct (gate_step callback inp fr p last_process_time)
    as [[p1 lpt1] acts1]. cbn [fst snd] in *.
  pose proof (overlay_step_keeps (it_time inp) p1) as (Hi2 & Hr2).
  destruct (overlay_step (it_time inp) p1) as [p2 acts2].
  cbn [fst] in *.
  destruct (it_show inp) as [key|e]; [destruct (pressed_q key)|];
    cbn [fst snd]; split; congruence.
Qed.

(** How a pass ends. *)
Lemma loop_body_control (inp : iteration_input) (p : processor)
  (last_process_time : Z) :
  snd (loop_body callback inp p last_process_time)
  = if quits inp then Break
    else match it_capture inp with ReadFailed => Continue | _ => Next end.
Proof.
  unfold loop_body, quits.
  destruct (it_capture inp) as [| |fr]; try reflexivity.
  destruct (gate_step callback inp fr p last_process_time)
    as [[p1 lpt1] acts1].
  destruct (overlay_step (it_time inp) p1) as [p2 acts2].
  destruct (it_show inp) as [key|e]; [destruct (pressed_q key)|];
    reflexivity.
Qed.

Lemma loop_body_sleeps (inp : iteration_input) (p : processor)
  (last_process_time : Z) :
  it_capture inp <> ReadFailed -> quits inp = false ->
  exists acts,
    snd (fst (loop_body callback inp p last_process_time))
    = acts ++ [Sleep].
Proof.
  unfold loop_body, quits. intros Hcap Hq.
  destruct (it_capture inp) as [| |fr]; [|contradiction|].
  - now exists [LogLoopError].
  - destruct (gate_step callback inp fr p last_process_time)
      as [[p1 lpt1] acts1].
    destruct (overlay_step (it_time inp) p1) as [p2 acts2].
    destruct (it_show inp) as [key|e]; [rewrite Hq|]; cbn [fst snd].
    + exists (acts1 ++ acts2 ++ [ShowFrame]).
      now rewrite <- !app_assoc.
    + exists (acts1 ++ acts2 ++ [LogLoopError]).
      now rewrite <- !app_assoc.
Qed.

Lemma apply_stop_keeps_interval (b : bool) (p : processor) :
  recognition_interval (fst (apply_stop b p)) = recognition_interval p.
Proof.
  unfold apply_stop, stop. destruct b; [|reflexivity].
  now destruct (camera (set_is_running false p)).
Qed.

Lemma apply_stop_running (b : bool) (p : processor) :
  is_running (fst (apply_stop b p)) = (if b then false else is_running p).
Proof.
  unfold apply_stop, stop. destruct b; [|reflexivity].
  now destruct (camera (set_is_running false p)).
Qed.

Lemma apply_stop_starts_no_cycle (b : bool) (p : processor) :
  cycle_times (snd (apply_stop b p)) = [].
Proof.
  unfold apply_stop, stop. destruct b; [|reflexivity].
  now destruct (camera (set_is_running false p)).
Qed.

Lemma run_loop_flag_cleared (inputs : list iteration_input)
  (p : processor) (last_process_time : Z) :
  is_running p = false ->
  run_loop callback inputs p last_process_time
  = (p, last_process_time, [], FlagCleared).
Proof. intros H. destruct inputs; simpl; now rewrite H. Qed.

Lemma run_loop_cons (inp : iteration_input) (rest : list iteration_input)
  (p : processor) (last_process_time : Z) :
  is_running p = true ->
  run_loop callback (inp :: rest) p last_process_time
  = let body := loop_body callback inp p last_process_time in
    let stopped := apply_stop (it_stop inp) (fst (fst (fst body))) in
    match snd body with
    | Break =>
        (fst stopped, snd (fst (fst body)),
         snd (fst body) ++ snd stopped, KeyPressed)
    | _ =>
        let r := run_loop callback rest (fst stopped)
                   (snd (fst (fst body))) in
        (fst (fst (fst r)), snd (fst (fst r)),
         snd (fst body) ++ snd stopped ++ snd (fst r), snd r)
    end.
Proof.
  intros H. cbn [run_loop]. rewrite H. cbn [negb].
  destruct (loop_body callback inp p last_process_time)
    as [[[p1 lpt1] acts] ctl]. cbn [fst snd].
  destruct (apply_stop (it_stop inp) p1) as [p2 acts_stop]. cbn [fst snd].
  destruct ctl; try reflexivity;
    now destruct (run_loop callback rest p2 lpt1) as [[[p3 lpt3] a3] st].
Qed.

End Passes.

Section Runs.

Variable callback : callback_fn.

(** Along a run every match cycle starts at least one interval after the
    one before it, the first one at least one interval after the time
    kept on entry. *)
Lemma run_loop_spaced (inputs : list iteration_input) :
  forall (p : processor) (last_process_time : Z),
    spaced (recognition_interval p * micro) last_process_time
      (cycle_times
         (snd (fst (run_loop callback inputs p last_process_time)))).
Proof.
  induction inputs as [|inp rest IH]; intros p lpt.
  - simpl. now destruct (is_running p).
  - destruct (is_running p) eqn:Hrun;
      [|now rewrite run_loop_flag_cleared].
    rewrite run_loop_cons by exact Hrun. cbv zeta.
    pose proof (loop_body_cycle callback inp p lpt) as (Hct & Hlpt).
    pose proof (loop_body_keeps callback inp p lpt) as (Hint & _).
    pose proof (loop_body_control callback inp p lpt) as Hctl.
    destruct (loop_body callback inp p lpt) as [[[p1 lpt1] acts] ctl].
    cbn [fst snd] in *.
    pose proof (apply_stop_keeps_interval (it_stop inp) p1) as Hint2.
    pose proof (apply_stop_starts_no_cycle (it_stop inp) p1) as Hstop.
    specialize (IH (fst (apply_stop (it_stop inp) p1)) lpt1).
    rewrite Hint2, Hint in IH.
    assert (Hhead :
      forall tail,
        spaced (recognition_interval p * micro) lpt1 tail ->
        spaced (recognition_interval p * micro) lpt
               (cycle_times acts ++ tail)).
    { intros tail Htail. rewrite Hct. rewrite Hlpt in Htail.
      destruct (captured inp && cycle_due p lpt (it_time inp)) eqn:Hruns;
        [|exact Htail].
      apply andb_prop in Hruns. destruct Hruns as [_ Hdue].
      simpl. split; [|exact Htail].
      unfold cycle_due in Hdue. now apply Z.leb_le. }
    destruct ctl; cbn [fst snd];
      rewrite ?cycle_times_app, Hstop, ?app_nil_l.
    + apply Hhead, IH.
    + apply Hhead, IH.
    + apply Hhead. exact I.
Qed.

Lemma spaced_after (gap prev : Z) (times : list Z) :
  0 <= gap -> spaced gap prev times ->
  forall j b, times !! j = Some b -> gap <= b - prev.
Proof.
  intros Hgap. revert prev.
  induction times as [|t times IH]; intros prev Hsp j b Hj;
    [discriminate Hj|].
  destruct Hsp as [Ht Hsp]. destruct j as [|j].
  - injection Hj as <-. exact Ht.
  - specialize (IH t Hsp j b Hj). lia.
Qed.

Lemma spaced_pairwise (gap prev : Z) (times : list Z) :
  0 <= gap -> spaced gap prev times ->
  forall i j a b, (i < j)%nat ->
    times !! i = Some a -> times !! j = Some b -> gap <= b - a.
Proof.
  intros Hgap. revert prev.
  induction times as [|t times IH]; intros prev Hsp i j a b Hij Hi Hj;
    [discriminate Hi|].
  destruct Hsp as [_ Hsp]. destruct j as [|j]; [lia|].
  destruct i as [|i].
  - injection Hi as <-. exact (spaced_after gap t times Hgap Hsp j b Hj).
  - apply (IH t Hsp i j a b); [lia | exact Hi | exact Hj].
Qed.

(** How a run ends, from the passes it was given. *)
Lemma run_loop_status (inputs : list iteration_input) :
  forall (p : processor) (last_process_time : Z),
    is_running p = true ->
    snd (run_loop callback inputs p last_process_time)
    = match List.find asks_exit inputs with
      | None => StillRunning
      | Some inp => if quits inp then KeyPressed else FlagCleared
      end.
Proof.
  induction inputs as [|inp rest IH]; intros p lpt Hrun.
  - simpl. now rewrite Hrun.
  - rewrite run_loop_cons by exact Hrun. cbv zeta.
    pose proof (loop_body_keeps callback inp p lpt) as (_ & Hkeep).
    rewrite (loop_body_control callback inp p lpt).
    cbn [List.find]. unfold asks_exit.
    destruct (quits inp) eqn:Hq.
    + rewrite orb_true_r. now rewrite Hq.
    + rewrite orb_false_r.
      pose proof (apply_stop_running (it_stop inp)
                    (fst (fst (fst (loop_body callback inp p lpt)))))
        as Hstop.
      destruct (it_stop inp) eqn:Hs.
      * rewrite Hq.
        destruct (it_capture inp); cbn [fst snd];
          now rewrite run_loop_flag_cleared.
      * rewrite Hkeep, Hrun in Hstop.
        destruct (it_capture inp); cbn [fst snd];
          now rewrite (IH _ _ Hstop).
Qed.

End Runs.

(** C7 (amended).  In a pass that captured a frame a match cycle runs
    exactly when the loop time is at least [recognition_interval] seconds
    after the last-processed time, and that time is then set to the loop
    time; a pass without a frame runs no cycle and leaves it alone.  Hence,
    along a run, any two match cycles start at least [recognition_interval]
    seconds apart (the interval being non-negative). *)
Theorem match_cycle_gate (callback : callback_fn) (started_at : Z)
  (inputs : list iteration_input) (p : processor) :
  0 <= recognition_interval p ->
  (forall inp q last_process_time,
      let out := loop_body callback inp q last_process_time in
      let runs := captured inp
                  && cycle_due q last_process_time (it_time inp) in
      cycle_times (snd (fst out)) = (if runs then [it_time inp] else [])
      /\ snd (fst (fst out))
         = (if runs then it_time inp else last_process_time))
  /\ let times :=
       cycle_times
         (snd (fst (run_recognition callback started_at inputs p))) in
     spaced (recognition_interval p * micro) started_at times
     /\ forall i j a b, (i < j)%nat ->
          times !! i = Some a -> times !! j = Some b ->
          recognition_interval p * micro <= b - a.
Proof.
  intros Hint. split; [apply loop_body_cycle|]. cbv zeta.
  pose proof (run_loop_spaced callback inputs (set_is_running true p)
                started_at) as Hsp.
  change (recognition_interval (set_is_running true p))
    with (recognition_interval p) in Hsp.
  split; [exact Hsp|].
  apply (spaced_pairwise _ started_at); [unfold micro; lia | exact Hsp].
Qed.

Lemma match_cycle_gate_witness :
  cycle_times
    (snd (fst (run_recognition always_returns 0
                 [demo_pass 2000000 (-1) false;
                  demo_pass 5000000 (-1) false;
                  failed_pass 10000000;
                  demo_pass 10100000 (-1) false;
                  demo_pass 12000000 (-1) false]
                 demo_processor)))
  = [5000000; 10100000]
  /\ spaced (recognition_interval demo_processor * micro) 0
       (cycle_times
          (snd (fst (run_recognition always_returns 0
                       [demo_pass 2000000 (-1) false;
                        demo_pass 5000000 (-1) false;
                        failed_pass 10000000;
                        demo_pass 10100000 (-1) false;
                        demo_pass 12000000 (-1) false]
                       demo_processor)))).
Proof.
  split; [reflexivity|].
  apply (proj1 (proj2 (match_cycle_gate always_returns 0
                         [demo_pass 2000000 (-1) false;
                          demo_pass 5000000 (-1) false;
                          failed_pass 10000000;
                          demo_pass 10100000 (-1) false;
                          demo_pass 12000000 (-1) false]
                         demo_processor ltac:(simpl; lia)))).
Defined.

(** C7 as stated fails in a pass without a frame: ten seconds after the
    last-processed time, with an interval of five, no match cycle runs. *)
Lemma no_cycle_without_frame :
  let out := loop_body always_returns (failed_pass 10000000)
               demo_processor 0 in
  cycle_due demo_processor 0 10000000 = true
  /\ cycle_times (snd (fst out)) = []
  /\ ~ (cycle_times (snd (fst out)) <> [] <->
        cycle_due demo_processor 0 10000000 = true).
Proof.
  cbv zeta. split; [reflexivity|]. split; [reflexivity|].
  intros [_ H]. now apply H.
Qed.

(** C8 (amended).  A run ends in the first pass in which [stop()] is called
    or the key [q] is read in the window, and in no other: by [break] in
    that very pass when it is the key, at the next test of the running flag
    when it is [stop()].  Passes without either, whatever they capture,
    match or raise, leave the loop running.  A pass that captured a frame
    or caught an exception, and does not leave by the key, ends with the
    call of [sleep]. *)
Theorem loop_exit (callback : callback_fn) (started_at : Z)
  (inputs : list iteration_input) (p : processor) :
  snd (run_recognition callback started_at inputs p)
  = match List.find asks_exit inputs with
    | None => StillRunning
    | Some inp => if quits inp then KeyPressed else FlagCleared
    end
  /\ (forall inp q last_process_time,
         it_capture inp <> ReadFailed -> quits inp = false ->
         snd (loop_body callback inp q last_process_time) = Next
         /\ exists acts,
              snd (fst (loop_body callback inp q last_process_time))
              = acts ++ [Sleep]).
Proof.
  split.
  - unfold run_recognition. now apply run_loop_status.
  - intros inp q lpt Hcap Hq. split.
    + rewrite loop_body_control, Hq.
      destruct (it_capture inp); [reflexivity | contradiction | reflexivity].
    + now apply loop_body_sleeps.
Qed.

Lemma loop_exit_witness :
  snd (run_recognition always_returns 0
         [demo_pass 2000000 (-1) false; failed_pass 3000000;
          demo_pass 5000000 (-1) true; demo_pass 6000000 (-1) false]
         demo_processor) = FlagCleared
  /\ snd (loop_body always_returns (demo_pass 2000000 (-1) false)
            demo_processor 0) = Next
  /\ exists acts,
       snd (fst (loop_body always_returns (demo_pass 2000000 (-1) false)
                   demo_processor 0)) = acts ++ [Sleep].
Proof.
  split.
  - exact (proj1 (loop_exit always_returns 0
                    [demo_pass 2000000 (-1) false; failed_pass 3000000;
                     demo_pass 5000000 (-1) true;
                     demo_pass 6000000 (-1) false]
                    demo_processor)).
  - apply (proj2 (loop_exit always_returns 0 [] demo_processor)
             (demo_pass 2000000 (-1) false) demo_processor 0).
    + discriminate.
    + reflexivity.
Defined.

(** C8 as stated fails: the key [q] (code 113) read in the window ends the
    run although [stop()] was never called and the flag is still set. *)
Lemma quit_key_ends_run :
  let out := run_recognition always_returns 0
               [demo_pass 2000000 113 false] demo_processor in
  it_stop (demo_pass 2000000 113 false) = false
  /\ snd out = KeyPressed
  /\ is_running (fst (fst (fst out))) = true.
Proof. cbv zeta. repeat split; reflexivity. Qed.


(** * Further properties of the code *)

(** ** More on the scan *)

Section ScanMore.

Variable env : cycle_env.
Variable dir : string.
Variable frame_bytes : bytes.

(** The comparator is called on the references in the order of the
    listing, none left out and none twice, up to where the scan stops. *)
Lemma scan_compares_in_order (files : list string) :
  exists rest,
    List.filter is_reference files
    = compared (snd (scan_faces env dir frame_bytes files)) ++ rest.
Proof.
  induction files as [|f files IH]; [now exists []|].
  destruct IH as [rest IH]. simpl.
  destruct (is_reference f) eqn:Href; simpl; [|now exists rest].
  destruct (read_file env (Str.join dir f)) as [stored|e];
    [|now exists (f :: List.filter is_reference files)].
  destruct (compare_faces env frame_bytes stored) as [[|s l]|e].
  - exists rest. unfold then_. cbn [fst snd]. rewrite compared_app.
    rewrite <- app_assoc, <- IH. reflexivity.
  - now exists (List.filter is_reference files).
  - exists rest. unfold then_. cbn [fst snd]. rewrite compared_app.
    rewrite <- app_assoc, <- IH. reflexivity.
Qed.

(** An identity that the loop returns comes from a reference of the
    listing for which the comparator reported that similarity first. *)
Lemma scan_result_sound (files : list string) (code : string)
  (similarity : Q) :
  fst (scan_faces env dir frame_bytes files) = Ok (Some code, similarity) ->
  exists face_file stored others,
    In face_file files /\ is_reference face_file = true
    /\ code = enrollment_code_of face_file
    /\ read_file env (Str.join dir face_file) = Ok stored
    /\ compare_faces env frame_bytes stored = Ok (similarity :: others).
Proof.
  induction files as [|f files IH]; [discriminate|].
  assert (Hrest :
    fst (scan_faces env dir frame_bytes files) = Ok (Some code, similarity) ->
    exists face_file stored others,
      In face_file (f :: files) /\ is_reference face_file = true
      /\ code = enrollment_code_of face_file
      /\ read_file env (Str.join dir face_file) = Ok stored
      /\ compare_faces env frame_bytes stored = Ok (similarity :: others)).
  { intros H. destruct (IH H) as (g & st & o & Hin & Hrest).
    exists g, st, o. split; [now right | exact Hrest]. }
  simpl. destruct (is_reference f) eqn:Href; simpl; [|exact Hrest].
  destruct (read_file env (Str.join dir f)) as [stored|e] eqn:Hread;
    [|discriminate].
  destruct (compare_faces env frame_bytes stored) as [[|s l]|e] eqn:Hcmp;
    simpl; try exact Hrest.
  intros H. injection H as <- <-.
  exists f, stored, l. split; [now left|]. repeat split; auto.
Qed.

(** A scan that ends without an identity ends with similarity 0. *)
Lemma scan_none_zero (files : list string) (similarity : Q) :
  fst (scan_faces env dir frame_bytes files) = Ok (None, similarity) ->
  similarity = 0%Q.
Proof.
  induction files as [|f files IH]; simpl.
  - intros H. now injection H as <-.
  - destruct (is_reference f); simpl; [|exact IH].
    destruct (read_file env (Str.join dir f)) as [stored|e]; [|discriminate].
    destruct (compare_faces env frame_bytes stored) as [[|s l]|e];
      simpl; try exact IH. discriminate.
Qed.

End ScanMore.

(** X1.  The comparator calls of a match cycle follow the directory
    listing: the files compared are an initial part of the references of
    the listing, in the same order, each once. *)
Theorem comparisons_follow_listing (env : cycle_env) (p : processor)
  (fr : frame) (files : list string) :
  listdir env (faces_directory p) = Ok files ->
  exists rest,
    List.filter is_reference files
    = compared (snd (compare_with_stored_faces env p fr)) ++ rest.
Proof.
  intros Hls. unfold compare_with_stored_faces. rewrite Hls.
  destruct (imencode env fr) as [frame_bytes|];
    [|now exists (List.filter is_reference files)].
  destruct (scan_compares_in_order env (faces_directory p) frame_bytes files)
    as [rest Hrest].
  destruct (scan_faces env (faces_directory p) frame_bytes files)
    as [[r|e] acts]; cbn [fst snd] in *; exists rest; [exact Hrest|].
  rewrite compared_app. simpl. now rewrite app_nil_r.
Qed.

Lemma comparisons_follow_listing_witness :
  exists rest,
    List.filter is_reference demo_listing
    = compared (snd (compare_with_stored_faces demo_env demo_processor
                       demo_frame)) ++ rest.
Proof.
  apply (comparisons_follow_listing demo_env demo_processor demo_frame
           demo_listing).
  reflexivity.
Defined.

(** X2.  What a match cycle returns is sound: an identity is returned only
    if the frame was encoded, the directory listed, and the identity is the
    stem of a reference of the listing that was read and for which the
    comparator reported the returned similarity as its first match; and a
    cycle that returns no identity returns the similarity 0. *)
Theorem match_result_sound (env : cycle_env) (p : processor) (fr : frame) :
  (forall code similarity,
      fst (compare_with_stored_faces env p fr) = (Some code, similarity) ->
      exists frame_bytes files face_file stored others,
        imencode env fr = Ok frame_bytes
        /\ listdir env (faces_directory p) = Ok files
        /\ In face_file files /\ is_reference face_file = true
        /\ code = enrollment_code_of face_file
        /\ read_file env (Str.join (faces_directory p) face_file) = Ok stored
        /\ compare_faces env frame_bytes stored = Ok (similarity :: others))
  /\ (fst (fst (compare_with_stored_faces env p fr)) = None ->
      snd (fst (compare_with_stored_faces env p fr)) = 0%Q).
Proof.
  unfold compare_with_stored_faces.
  destruct (imencode env fr) as [frame_bytes|];
    [|split; [discriminate | reflexivity]].
  destruct (listdir env (faces_directory p)) as [files|];
    [|split; [discriminate | reflexivity]].
  pose proof (scan_result_sound env (faces_directory p) frame_bytes files)
    as Hsound.
  pose proof (scan_none_zero env (faces_directory p) frame_bytes files)
    as Hzero.
  destruct (scan_faces env (faces_directory p) frame_bytes files)
    as [[[c s]|e] acts]; cbn [fst snd] in *;
    [|split; [discriminate | reflexivity]].
  split.
  - intros code similarity H. injection H as -> ->.
    destruct (Hsound code similarity eq_refl) as (f & st & o & H).
    now exists frame_bytes, files, f, st, o.
  - intros ->. now apply Hzero.
Qed.

Lemma match_result_sound_witness :
  (exists frame_bytes files face_file stored others,
      imencode demo_env demo_frame = Ok frame_bytes
      /\ listdir demo_env (faces_directory demo_processor) = Ok files
      /\ In face_file files /\ is_reference face_file = true
      /\ "E100"%string = enrollment_code_of face_file
      /\ read_file demo_env
           (Str.join (faces_directory demo_processor) face_file) = Ok stored
      /\ compare_faces demo_env frame_bytes stored = Ok (92%Q :: others))
  /\ snd (fst (compare_with_stored_faces down_env demo_processor
                 demo_frame)) = 0%Q.
Proof.
  split.
  - apply (proj1 (match_result_sound demo_env demo_processor demo_frame)
             "E100"%string 92%Q).
    reflexivity.
  - apply (proj2 (match_result_sound down_env demo_processor demo_frame)).
    reflexivity.
Defined.

(** X3.  A reference that cannot be opened ends the scan: the exception
    leaves the loop, so the cycle returns [(None, 0)] and logs the failure,
    and no entry after the unreadable one is read or compared, even one
    for which the comparator would report a match. *)
Theorem unreadable_reference_ends_scan (env : cycle_env) (p : processor)
  (fr : frame) (frame_bytes : bytes) (pre : list string)
  (face_file : string) (post : list string) (e : exn) :
  imencode env fr = Ok frame_bytes ->
  listdir env (faces_directory p) = Ok (pre ++ face_file :: post) ->
  (forall g, In g pre -> is_reference g = true ->
             comparison_fails env (faces_directory p) frame_bytes g) ->
  is_reference face_file = true ->
  read_file env (Str.join (faces_directory p) face_file) = Raise e ->
  fst (compare_with_stored_faces env p fr) = (None, 0%Q)
  /\ compared (snd (compare_with_stored_faces env p fr))
     = List.filter is_reference pre
  /\ exists acts,
       snd (compare_with_stored_faces env p fr)
       = acts ++ [ReadFace (Str.join (faces_directory p) face_file);
                  LogScanError]
       /\ compared acts = List.filter is_reference pre.
Proof.
  intros Henc Hls Hpre Href Hread.
  destruct (scan_walks_prefix env (faces_directory p) frame_bytes pre
              (face_file :: post) Hpre) as (acts & Hscan & Hacts).
  unfold compare_with_stored_faces. rewrite Henc, Hls, Hscan.
  simpl. rewrite Href, Hread. simpl.
  split; [reflexivity|]. split.
  - rewrite !compared_app, Hacts.
    change (compared [ReadFace (Str.join (faces_directory p) face_file)])
      with (@nil string).
    change (compared [LogScanError]) with (@nil string).
    now rewrite !app_nil_r.
  - exists acts. split; [now rewrite <- app_assoc | exact Hacts].
Qed.

Lemma unreadable_reference_ends_scan_witness :
  fst (compare_with_stored_faces locked_env demo_processor demo_frame)
  = (None, 0%Q)
  /\ compared (snd (compare_with_stored_faces locked_env demo_processor
                      demo_frame)) = []
  /\ exists acts,
       snd (compare_with_stored_faces locked_env demo_processor demo_frame)
       = acts ++ [ReadFace "faces/E050.png"; LogScanError]
       /\ compared acts = [].
Proof.
  apply (unreadable_reference_ends_scan locked_env demo_processor demo_frame
           demo_frame ["notes.txt"] "E050.png" ["E100.jpg"; "E200.jpeg"]
           FileError).
  - reflexivity.
  - reflexivity.
  - intros g [<-|[]] Hg. discriminate Hg.
  - reflexivity.
  - reflexivity.
Defined.

(** ** The enrollment code *)

Lemma append_empty (s : string) : (s ++ EmptyString)%string = s.
Proof.
  induction s as [|c s IH]; [reflexivity|].
  now rewrite StrFacts.append_cons, IH.
Qed.

(** Cutting a string at any index and gluing the two parts gives it
    back. *)
Lemma substring_split (s : string) :
  forall n : nat,
    (substring 0 n s ++ substring n (String.length s - n) s)%string = s.
Proof.
  induction s as [|c s IH]; intros n.
  - now destruct n.
  - destruct n as [|n].
    + specialize (IH 0%nat).
      replace (substring 0 0 s) with EmptyString in IH by (now destruct s).
      rewrite StrFacts.append_nil in IH.
      cbn [substring String.length Nat.sub].
      rewrite StrFacts.append_nil.
      rewrite Nat.sub_0_r in IH. now rewrite IH.
    + cbn [substring String.length Nat.sub].
      now rewrite StrFacts.append_cons, IH.
Qed.

(** X4.  The enrollment code is an initial part of the file name: the two
    parts that [splitext] returns give the name back, so the code is the
    name itself or the name without its last dotted ending.  For an entry
    that the scan takes as a reference the code is never empty. *)
Theorem enrollment_code_is_prefix (face_file : string) :
  (enrollment_code_of face_file ++ snd (Str.splitext face_file))%string
  = face_file
  /\ (is_reference face_file = true ->
      enrollment_code_of face_file <> EmptyString).
Proof.
  split.
  - unfold enrollment_code_of, Str.splitext.
    destruct (_ && _); cbn [fst snd].
    + apply substring_split.
    + apply append_empty.
  - intros Href Hempty.
    pose proof (reference_code_truthy face_file Href) as Ht.
    unfold truthy_str in Ht. rewrite Hempty in Ht. discriminate Ht.
Qed.

Lemma enrollment_code_is_prefix_witness :
  (enrollment_code_of "E100.jpg" ++ snd (Str.splitext "E100.jpg"))%string
  = "E100.jpg"%string
  /\ enrollment_code_of "E100.jpg" <> EmptyString.
Proof.
  split.
  - exact (proj1 (enrollment_code_is_prefix "E100.jpg")).
  - apply (proj2 (enrollment_code_is_prefix "E100.jpg")). reflexivity.
Defined.

(** ** Camera and flag *)

(** X5.  [stop()] is idempotent on the state: a second call leaves what
    the first one left, the flag cleared and the handle, if there is one,
    closed. *)
Theorem stop_idempotent (p : processor) :
  fst (stop (fst (stop p))) = fst (stop p)
  /\ is_running (fst (stop p)) = false
  /\ (forall c, camera (fst (stop p)) = Some c -> cam_opened c = false).
Proof.
  unfold stop. simpl. destruct (camera p) as [c|] eqn:Hc; simpl;
    rewrite ?Hc; simpl.
  - split; [reflexivity|]. split; [reflexivity|].
    intros c' H. injection H as <-. reflexivity.
  - split; [reflexivity|]. split; [reflexivity|].
    intros c H. discriminate H.
Qed.

Lemma stop_idempotent_witness :
  cam_opened {| cam_index := 0; cam_opened := false;
                cam_width := 640; cam_height := 480 |} = false.
Proof.
  apply (proj2 (proj2 (stop_idempotent
                         (fst (fst (start_camera true 0 demo_processor)))))).
  reflexivity.
Defined.



(** ** A callback that fails *)

(** X7.  When the callback raises for an accepted match, [process_frame]
    returns [None] and leaves the overlay as it was, but the cooldown entry
    of the identity is already written: a later match of the same identity
    inside the interval is suppressed, so the record that the callback
    failed on is not offered again before the interval has run out. *)
Theorem failed_callback_starts_cooldown (callback : callback_fn)
  (env : cycle_env) (dt_now t_now : Z) (fr : frame) (p : processor)
  (code : string) (similarity : Q) (e : exn) :
  fst (compare_with_stored_faces env p fr) = (Some code, similarity) ->
  in_cooldown p code dt_now = false ->
  callback (record_of p code dt_now similarity) = Raise e ->
  let out := process_frame callback env dt_now t_now fr p in
  let p1 := fst (fst out) in
  snd out = None
  /\ callbacks (snd (fst out)) = [record_of p code dt_now similarity]
  /\ last_recognition_times p1 !! code = Some dt_now
  /\ last_recognition_text p1 = last_recognition_text p
  /\ text_display_time p1 = text_display_time p
  /\ forall env' dt' t' fr' similarity',
       fst (compare_with_stored_faces env' p1 fr') = (Some code, similarity')
       -> dt' - dt_now < recognition_interval p * micro
       -> callbacks (snd (fst (process_frame callback env' dt' t' fr' p1)))
          = [].
Proof.
  intros Hfound Hacc Hraise out p1. subst p1 out.
  rewrite (process_frame_found callback env dt_now t_now fr p code
             similarity Hfound).
  rewrite handle_accepted by exact Hacc. rewrite Hraise. cbn [fst snd].
  set (p1 := set_last_recognition_times _ p).
  assert (Hlast : last_recognition_times p1 !! code = Some dt_now)
    by (subst p1; simpl; apply lookup_insert_eq).
  split; [reflexivity|]. split.
  { rewrite !callbacks_app, compare_no_callbacks. reflexivity. }
  split; [exact Hlast|]. split; [reflexivity|]. split; [reflexivity|].
  intros env' dt' t' fr' similarity' Hfound' Hwithin.
  rewrite (process_frame_found callback env' dt' t' fr' p1 code
             similarity' Hfound').
  rewrite handle_suppressed
    by (apply (in_cooldown_within p1 code dt_now); assumption).
  cbn [fst snd]. now rewrite app_nil_r, compare_no_callbacks.
Qed.

Lemma failed_callback_starts_cooldown_witness :
  snd (process_frame always_raises demo_env 0 250 demo_frame
         demo_processor) = None
  /\ callbacks (snd (fst (process_frame always_raises demo_env 0 250
                            demo_frame demo_processor)))
     = [record_of demo_processor "E100" 0 92%Q]
  /\ callbacks
       (snd (fst (process_frame always_raises demo_env 3000000 3000250
                    demo_frame
                    (fst (fst (process_frame always_raises demo_env 0 250
                                 demo_frame demo_processor)))))) = [].
Proof.
  pose proof (failed_callback_starts_cooldown always_raises demo_env 0 250
                demo_frame demo_processor "E100" 92%Q CallbackError
                eq_refl eq_refl eq_refl) as H.
  cbv zeta in H. destruct H as (H1 & H2 & _ & _ & _ & H6).
  split; [exact H1|]. split; [exact H2|].
  apply (H6 demo_env 3000000 3000250 demo_frame 92%Q);
    [reflexivity | simpl; unfold micro; lia].
Defined.

(** ** What every pass of the loop keeps *)

Section RunInvariants.

Variable callback : callback_fn.

Lemma process_frame_effect (env : cycle_env) (dt_now t_now : Z) (fr : frame)
  (p : processor) :
  let out := process_frame callback env dt_now t_now fr p in
  cycle_effect p (fst (fst out)) dt_now (callbacks (snd (fst out)))
  /\ device_id (fst (fst out)) = device_id p
  /\ camera (fst (fst out)) = camera p.
Proof.
  cbv zeta.
  destruct (fst (compare_with_stored_faces env p fr)) as [[code|] sim]
    eqn:Hfound.
  - rewrite (process_frame_found callback env dt_now t_now fr p code sim
               Hfound).
    destruct (in_cooldown p code dt_now) eqn:Hcool.
    + rewrite handle_suppressed by exact Hcool. cbn [fst snd].
      rewrite app_nil_r, compare_no_callbacks.
      split; [left; split; reflexivity | split; reflexivity].
    + rewrite handle_accepted by exact Hcool.
      destruct (callback (record_of p code dt_now sim)); cbn [fst snd];
        rewrite !callbacks_app, compare_no_callbacks;
        (split; [right; exists code, sim; repeat split; auto
                | split; reflexivity]).
  - rewrite process_frame_not_found by (now rewrite Hfound).
    cbn [fst snd]. rewrite compare_no_callbacks.
    split; [left; split; reflexivity | split; reflexivity].
Qed.

Lemma overlay_step_effect (t : Z) (p : processor) :
  last_recognition_times (fst (overlay_step t p)) = last_recognition_times p
  /\ device_id (fst (overlay_step t p)) = device_id p
  /\ camera (fst (overlay_step t p)) = camera p
  /\ callbacks (snd (overlay_step t p)) = [].
Proof.
  unfold overlay_step.
  destruct (last_recognition_text p), (text_display_time p); simpl; auto.
  destruct (_ && _); simpl; auto. destruct (_ <=? _); simpl; auto.
Qed.

(** What one pass does to the table, and what it delivers. *)
Lemma loop_body_effect (inp : iteration_input) (p : processor)
  (last_process_time : Z) :
  let out := loop_body callback inp p last_process_time in
  cycle_effect p (fst (fst (fst out))) (it_dt_now inp)
    (callbacks (snd (fst out)))
  /\ device_id (fst (fst (fst out))) = device_id p
  /\ camera (fst (fst (fst out))) = camera p
  /\ (length (callbacks (snd (fst out)))
      <= length (cycle_times (snd (fst out))))%nat.
Proof.
  cbv zeta.
  pose proof (loop_body_cycle callback inp p last_process_time) as (Hct & _).
  revert Hct. unfold loop_body, captured.
  destruct (it_capture inp) as [| |fr].
  1,2: intros _; cbn [fst snd];
       (split; [left; split; reflexivity|]); repeat split; auto.
  cbn [andb].
  destruct (cycle_due p last_process_time (it_time inp)) eqn:Hdue.
  - rewrite gate_step_due by exact Hdue.
    pose proof (process_frame_effect (it_env inp) (it_dt_now inp)
                  (it_text_time inp) fr p) as (Heff & Hdev & Hcam).
    destruct (process_frame _ _ _ _ _ _) as [[p1 acts1] r].
    cbn [fst snd] in *.
    pose proof (overlay_step_effect (it_time inp) p1)
      as (Ht & Hd & Hc & Hcb).
    destruct (overlay_step (it_time inp) p1) as [p2 acts2].
    cbn [fst snd] in *.
    assert (Heff2 : cycle_effect p p2 (it_dt_now inp) (callbacks acts1)).
    { destruct Heff as [[H1 H2]|(code & sim & H1 & H2 & H3)].
      - left. split; [exact H1 | congruence].
      - right. exists code, sim. repeat split; auto. congruence. }
    assert (Hlen : (length (callbacks acts1) <= 1)%nat).
    { destruct Heff as [[H1 _]|(code & sim & _ & H2 & _)];
        [rewrite H1 | rewrite H2]; simpl; lia. }
    destruct (it_show inp) as [key|e]; [destruct (pressed_q key)|];
      cbn [fst snd]; intros Hct; rewrite Hct;
      change (ProcessFrame (it_time inp) :: acts1)
        with ([ProcessFrame (it_time inp)] ++ acts1);
      rewrite !callbacks_app, Hcb;
      change (callbacks [ProcessFrame (it_time inp)])
        with (@nil AttendanceRecord);
      cbn [app]; rewrite app_nil_r;
      (split; [exact Heff2|]); (split; [congruence|]);
      (split; [congruence | exact Hlen]).
  - rewrite gate_step_not_due by exact Hdue.
    pose proof (overlay_step_effect (it_time inp) p) as (Ht & Hd & Hc & Hcb).
    destruct (overlay_step (it_time inp) p) as [p2 acts2].
    cbn [fst snd] in *.
    destruct (it_show inp) as [key|e]; [destruct (pressed_q key)|];
      cbn [fst snd]; intros Hct; rewrite Hct;
      rewrite !callbacks_app, Hcb; cbn [app];
      (split; [left; split; [reflexivity | exact Ht]|]);
      (split; [exact Hd|]); (split; [exact Hc | simpl; lia]).
Qed.

Lemma apply_stop_effect (b : bool) (p : processor) :
  last_recognition_times (fst (apply_stop b p)) = last_recognition_times p
  /\ device_id (fst (apply_stop b p)) = device_id p
  /\ last_recognition_text (fst (apply_stop b p)) = last_recognition_text p
  /\ text_display_time (fst (apply_stop b p)) = text_display_time p
  /\ callbacks (snd (apply_stop b p)) = []
  /\ camera (fst (apply_stop b p))
     = (if b then option_map release (camera p) else camera p).
Proof.
  unfold apply_stop, stop. destruct b; [|repeat split; reflexivity].
  simpl. destruct (camera p) eqn:Hc; simpl; rewrite ?Hc;
    repeat split; reflexivity.
Qed.

(** A relation between the state before a run, what the run does and the
    state after it holds for every run when it holds for the empty run and
    is carried backwards over one pass. *)
Lemma run_loop_invariant
  (P : processor -> list action -> processor -> Prop) :
  (forall p, P p [] p) ->
  (forall inp p lpt q acts',
      is_running p = true ->
      P (fst (apply_stop (it_stop inp)
                (fst (fst (fst (loop_body callback inp p lpt))))))
        acts' q ->
      P p (snd (fst (loop_body callback inp p lpt))
             ++ snd (apply_stop (it_stop inp)
                       (fst (fst (fst (loop_body callback inp p lpt)))))
             ++ acts') q) ->
  forall inputs p lpt,
    P p (snd (fst (run_loop callback inputs p lpt)))
        (fst (fst (fst (run_loop callback inputs p lpt)))).
Proof.
  intros Hrefl Hstep. induction inputs as [|inp rest IH]; intros p lpt.
  - simpl. destruct (is_running p); apply Hrefl.
  - destruct (is_running p) eqn:Hrun;
      [|rewrite run_loop_flag_cleared by exact Hrun; apply Hrefl].
    rewrite run_loop_cons by exact Hrun. cbv zeta.
    destruct (snd (loop_body callback inp p lpt)); cbn [fst snd].
    + apply Hstep; [exact Hrun | apply IH].
    + apply Hstep; [exact Hrun | apply IH].
    + rewrite <- (app_nil_r (snd (apply_stop _ _))).
      apply Hstep; [exact Hrun | apply Hrefl].
Qed.

End RunInvariants.

(** ** Whole runs *)

Lemma accepted_times_app (code : string) (a b : list action) :
  accepted_times code (a ++ b)
  = accepted_times code a ++ accepted_times code b.
Proof.
  unfold accepted_times.
  now rewrite callbacks_app, List.filter_app, List.map_app.
Qed.

Lemma cooled_pairwise (gap : Z) (entry : option Z) (times : list Z) :
  0 <= gap -> cooled gap entry times ->
  forall i j a b, (i < j)%nat ->
    times !! i = Some a -> times !! j = Some b -> gap <= b - a.
Proof.
  intros Hgap Hcool. destruct entry as [last|].
  - exact (spaced_pairwise gap last times Hgap Hcool).
  - destruct times as [|t rest]; intros i j a b Hij Hi Hj;
      [discriminate Hi|].
    simpl in Hcool. destruct j as [|j]; [lia|]. destruct i as [|i].
    + injection Hi as <-. exact (spaced_after gap t rest Hgap Hcool j b Hj).
    + apply (spaced_pairwise gap t rest Hgap Hcool i j a b);
        [lia | exact Hi | exact Hj].
Qed.

(** X8.  Along a whole run, whatever is matched and in whatever order, two
    records delivered to the callback for the same identity are never less
    than [recognition_interval] seconds apart (by the readings of
    [datetime.now()] they carry), and the first one is at least the
    interval after the entry that the table held for the identity when the
    run began.  The interval is taken non-negative. *)
Theorem run_respects_cooldown (callback : callback_fn) (started_at : Z)
  (inputs : list iteration_input) (p : processor) (code : string) :
  0 <= recognition_interval p ->
  let times :=
    accepted_times code
      (snd (fst (run_recognition callback started_at inputs p))) in
  cooled (recognition_interval p * micro)
         (last_recognition_times p !! code) times
  /\ forall i j a b, (i < j)%nat ->
       times !! i = Some a -> times !! j = Some b ->
       recognition_interval p * micro <= b - a.
Proof.
  intros Hint. cbv zeta.
  assert (Hcool :
    cooled (recognition_interval p * micro)
      (last_recognition_times p !! code)
      (accepted_times code
         (snd (fst (run_recognition callback started_at inputs p))))).
  { unfold run_recognition.
    pose proof (run_loop_invariant callback
      (fun p0 acts q =>
         forall c, cooled (recognition_interval p0 * micro)
                     (last_recognition_times p0 !! c)
                     (accepted_times c acts))) as Hinv.
    cbv beta in Hinv.
    refine (Hinv _ _ inputs (set_is_running true p) started_at code).
    { intros p0 c. simpl. now destruct (last_recognition_times p0 !! c). }
    intros inp p0 lpt q acts' _ Htail c.
    pose proof (loop_body_effect callback inp p0 lpt) as (Heff & _).
    pose proof (loop_body_keeps callback inp p0 lpt) as (Hi1 & _).
    destruct (loop_body callback inp p0 lpt) as [[[p1 lpt1] acts] ctl].
    cbn [fst snd] in *.
    pose proof (apply_stop_effect (it_stop inp) p1)
      as (Ht2 & _ & _ & _ & Hcb2 & _).
    pose proof (apply_stop_keeps_interval (it_stop inp) p1) as Hi2.
    specialize (Htail c). rewrite Hi2, Hi1, Ht2 in Htail.
    rewrite !accepted_times_app.
    replace (accepted_times c (snd (apply_stop (it_stop inp) p1)))
      with (@nil Z) by (unfold accepted_times; now rewrite Hcb2).
    cbn [app].
    destruct Heff as [[H1 H2]|(c0 & sim & Hacc & H1 & H2)].
    - unfold accepted_times at 1. rewrite H1. cbn [List.filter List.map app].
      now rewrite <- H2.
    - unfold accepted_times at 1. rewrite H1. cbn [List.filter student_id
        record_of].
      rewrite H2 in Htail.
      destruct (String.eqb_spec c0 c) as [->|Hne].
      + cbn [List.map app capture_timestamp].
        rewrite lookup_insert_eq in Htail. cbn [cooled] in Htail.
        unfold in_cooldown in Hacc.
        destruct (last_recognition_times p0 !! c) as [last|]; cbn [cooled].
        * split; [|exact Htail]. apply Z.ltb_ge in Hacc. exact Hacc.
        * exact Htail.
      + cbn [List.map app].
        now rewrite lookup_insert_ne in Htail by exact Hne. }
  split; [exact Hcool|].
  assert (Hgap : 0 <= recognition_interval p * micro)
    by (unfold micro; lia).
  exact (cooled_pairwise _ _ _ Hgap Hcool).
Qed.

Lemma run_respects_cooldown_witness :
  accepted_times "E100"
    (snd (fst (run_recognition always_returns 0
                 [demo_pass 5000000 (-1) false;
                  demo_pass 10000000 (-1) false;
                  demo_pass 15100000 (-1) false]
                 demo_processor)))
  = [5200000; 10200000; 15300000]
  /\ cooled (recognition_interval demo_processor * micro)
       (last_recognition_times demo_processor !! "E100"%string)
       (accepted_times "E100"
          (snd (fst (run_recognition always_returns 0
                       [demo_pass 5000000 (-1) false;
                        demo_pass 10000000 (-1) false;
                        demo_pass 15100000 (-1) false]
                       demo_processor)))).
Proof.
  split; [reflexivity|].
  apply (proj1 (run_respects_cooldown always_returns 0
                  [demo_pass 5000000 (-1) false;
                   demo_pass 10000000 (-1) false;
                   demo_pass 15100000 (-1) false]
                  demo_processor "E100" ltac:(simpl; lia))).
Defined.

(** X9.  The cooldown table only grows: an identity that has an entry when
    a run begins has one when it ends, and, the interval being
    non-negative, the entry has not moved back in time. *)
Theorem run_keeps_entries (callback : callback_fn) (started_at : Z)
  (inputs : list iteration_input) (p : processor) (code : string) (t : Z) :
  0 <= recognition_interval p ->
  last_recognition_times p !! code = Some t ->
  exists t',
    last_recognition_times
      (fst (fst (fst (run_recognition callback started_at inputs p))))
    !! code = Some t'
    /\ t <= t'.
Proof.
  intros Hint Hentry. unfold run_recognition.
  pose proof (run_loop_invariant callback
    (fun p0 acts q =>
       0 <= recognition_interval p0 ->
       forall c u, last_recognition_times p0 !! c = Some u ->
         exists u', last_recognition_times q !! c = Some u' /\ u <= u'))
    as Hinv.
  cbv beta in Hinv.
  refine (Hinv _ _ inputs (set_is_running true p) started_at Hint code t
            Hentry).
  { intros p0 _ c u Hc. exists u. split; [exact Hc | lia]. }
  intros inp p0 lpt q acts' _ Htail Hint0 c u Hc.
  pose proof (loop_body_effect callback inp p0 lpt) as (Heff & _).
  pose proof (loop_body_keeps callback inp p0 lpt) as (Hi1 & _).
  destruct (loop_body callback inp p0 lpt) as [[[p1 lpt1] acts] ctl].
  cbn [fst snd] in *.
  pose proof (apply_stop_effect (it_stop inp) p1) as (Ht2 & _).
  pose proof (apply_stop_keeps_interval (it_stop inp) p1) as Hi2.
  rewrite Hi2, Hi1 in Htail. specialize (Htail Hint0).
  destruct Heff as [[_ H2]|(c0 & sim & Hacc & _ & H2)].
  - apply Htail. now rewrite Ht2, H2.
  - destruct (String.eqb_spec c0 c) as [->|Hne].
    + destruct (Htail c (it_dt_now inp)) as (u' & Hu' & Hle).
      { rewrite Ht2, H2. apply lookup_insert_eq. }
      exists u'. split; [exact Hu'|].
      unfold in_cooldown in Hacc. rewrite Hc in Hacc.
      apply Z.ltb_ge in Hacc. unfold micro in Hacc. lia.
    + apply Htail. rewrite Ht2, H2. now rewrite lookup_insert_ne.
Qed.

Lemma run_keeps_entries_witness :
  exists t',
    last_recognition_times
      (fst (fst (fst (run_recognition always_returns 0
                        [demo_pass 5000000 (-1) false;
                         demo_pass 10000000 (-1) true]
                        cooling_processor))))
    !! "E100"%string = Some t'
    /\ 0 <= t'.
Proof.
  apply (run_keeps_entries always_returns 0
           [demo_pass 5000000 (-1) false; demo_pass 10000000 (-1) true]
           cooling_processor "E100" 0).
  - simpl. lia.
  - reflexivity.
Defined.

(** X10.  Every record that a run delivers to the callback carries the
    device identifier of the processor, and the callback is called at most
    once per match cycle: the run never delivers more records than it
    started cycles. *)
Theorem run_delivers_own_records (callback : callback_fn) (started_at : Z)
  (inputs : list iteration_input) (p : processor) :
  let acts := snd (fst (run_recognition callback started_at inputs p)) in
  Forall (fun r => record_device_id r = device_id p) (callbacks acts)
  /\ (length (callbacks acts) <= length (cycle_times acts))%nat.
Proof.
  cbv zeta. unfold run_recognition.
  pose proof (run_loop_invariant callback
    (fun p0 acts q =>
       Forall (fun r => record_device_id r = device_id p0) (callbacks acts)
       /\ (length (callbacks acts) <= length (cycle_times acts))%nat))
    as Hinv.
  cbv beta in Hinv.
  refine (Hinv _ _ inputs (set_is_running true p) started_at).
  { intros p0. split; [constructor | reflexivity]. }
  intros inp p0 lpt q acts' _ [Hdev Hlen].
  pose proof (loop_body_effect callback inp p0 lpt)
    as (Heff & Hd1 & _ & Hl1).
  destruct (loop_body callback inp p0 lpt) as [[[p1 lpt1] acts] ctl].
  cbn [fst snd] in *.
  pose proof (apply_stop_effect (it_stop inp) p1)
    as (_ & Hd2 & _ & _ & Hcb2 & _).
  pose proof (apply_stop_starts_no_cycle (it_stop inp) p1) as Hct2.
  rewrite Hd2, Hd1 in Hdev.
  rewrite !callbacks_app, !cycle_times_app, Hcb2, Hct2. cbn [app].
  split.
  - apply Forall_app. split; [|exact Hdev].
    destruct Heff as [[H1 _]|(c0 & sim & _ & H1 & _)]; rewrite H1;
      repeat constructor.
  - rewrite !length_app. lia.
Qed.

(** ** The overlay state *)

Lemma overlay_set_consistent (text : string) (t : Z) (p : processor) :
  overlay_consistent (set_overlay (Some text) (Some t) p).
Proof. split; discriminate. Qed.

Lemma process_frame_keeps_overlay_consistent (callback : callback_fn)
  (env : cycle_env) (dt_now t_now : Z) (fr : frame) (p : processor) :
  overlay_consistent p ->
  overlay_consistent
    (fst (fst (process_frame callback env dt_now t_now fr p))).
Proof.
  intros Hp. unfold process_frame, handle_recognition.
  destruct (compare_with_stored_faces env p fr) as [[[code|] sim] acts];
    [|exact Hp].
  destruct (truthy_str code); [|exact Hp].
  destruct (in_cooldown p code dt_now); cbn [fst snd].
  - apply overlay_set_consistent.
  - destruct (callback _); cbn [fst snd];
      [apply overlay_set_consistent | exact Hp].
Qed.

Lemma overlay_step_keeps_consistent (t : Z) (p : processor) :
  overlay_consistent p -> overlay_consistent (fst (overlay_step t p)).
Proof.
  intros Hp. unfold overlay_step.
  destruct (last_recognition_text p), (text_display_time p);
    try exact Hp.
  destruct (_ && _); [|exact Hp].
  destruct (_ <=? _); [exact Hp|]. split; reflexivity.
Qed.

Lemma loop_body_keeps_overlay_consistent (callback : callback_fn)
  (inp : iteration_input) (p : processor) (last_process_time : Z) :
  overlay_consistent p ->
  overlay_consistent
    (fst (fst (fst (loop_body callback inp p last_process_time)))).
Proof.
  intros Hp. unfold loop_body.
  destruct (it_capture inp) as [| |fr]; [exact Hp | exact Hp |].
  assert (H1 : overlay_consistent
                 (fst (fst (gate_step callback inp fr p
                              last_process_time)))).
  { destruct (cycle_due p last_process_time (it_time inp)) eqn:Hdue.
    - rewrite gate_step_due by exact Hdue.
      now apply process_frame_keeps_overlay_consistent.
    - now rewrite gate_step_not_due by exact Hdue. }
  destruct (gate_step callback inp fr p last_process_time)
    as [[p1 lpt1] acts1]. cbn [fst] in H1.
  pose proof (overlay_step_keeps_consistent (it_time inp) p1 H1) as H2.
  destruct (overlay_step (it_time inp) p1) as [p2 acts2]. cbn [fst] in H2.
  destruct (it_show inp) as [key|e]; [destruct (pressed_q key)|];
    exact H2.
Qed.

(** X11.  Overlay text and overlay time stamp are set together and cleared
    together: a processor in which both are set or both are unset (as after
    [__init__]) is again so after a match cycle and after a whole run,
    whatever happens in it. *)
Theorem overlay_stays_consistent (callback : callback_fn) (p : processor) :
  overlay_consistent p ->
  (forall env dt_now t_now fr,
      overlay_consistent
        (fst (fst (process_frame callback env dt_now t_now fr p))))
  /\ (forall started_at inputs,
         overlay_consistent
           (fst (fst (fst (run_recognition callback started_at inputs
                             p))))).
Proof.
  intros Hp. split.
  - intros env dt_now t_now fr.
    now apply process_frame_keeps_overlay_consistent.
  - intros started_at inputs. unfold run_recognition.
    pose proof (run_loop_invariant callback
      (fun p0 acts q => overlay_consistent p0 -> overlay_consistent q))
      as Hinv.
    cbv beta in Hinv.
    refine (Hinv _ _ inputs (set_is_running true p) started_at Hp).
    { intros p0 H. exact H. }
    intros inp p0 lpt q acts' _ Htail H0. apply Htail.
    pose proof (loop_body_keeps_overlay_consistent callback inp p0 lpt H0)
      as H1.
    pose proof (apply_stop_effect (it_stop inp)
                  (fst (fst (fst (loop_body callback inp p0 lpt)))))
      as (_ & _ & Htext & Htime & _).
    unfold overlay_consistent in *. now rewrite Htext, Htime.
Qed.

Lemma overlay_stays_consistent_witness :
  overlay_consistent
    (fst (fst (process_frame always_returns demo_env 0 250 demo_frame
                 (init "door-1" 5))))
  /\ overlay_consistent
       (fst (fst (fst (run_recognition always_returns 0
                         [demo_pass 5000000 (-1) false;
                          demo_pass 8000000 (-1) false]
                         (init "door-1" 5))))).
Proof.
  assert (H0 : overlay_consistent (init "door-1" 5))
    by (split; reflexivity).
  split.
  - apply (proj1 (overlay_stays_consistent always_returns
                    (init "door-1" 5) H0)).
  - apply (proj2 (overlay_stays_consistent always_returns
                    (init "door-1" 5) H0)).
Defined.

(** ** What a run leaves behind *)

Section AfterRun.

Variable callback : callback_fn.

Lemma run_loop_leaves (inputs : list iteration_input) :
  forall (p : processor) (last_process_time : Z),
    is_running p = true ->
    let q := fst (fst (fst (run_loop callback inputs p
                              last_process_time))) in
    is_running q
    = match List.find asks_exit inputs with
      | Some inp => negb (it_stop inp)
      | None => true
      end
    /\ camera q
       = match List.find asks_exit inputs with
         | Some inp =>
             if it_stop inp then option_map release (camera p) else camera p
         | None => camera p
         end.
Proof.
  induction inputs as [|inp rest IH]; intros p lpt Hrun; cbv zeta.
  - simpl. rewrite Hrun. simpl. now split.
  - rewrite run_loop_cons by exact Hrun. cbv zeta.
    pose proof (loop_body_keeps callback inp p lpt) as (_ & Hkeep).
    pose proof (loop_body_effect callback inp p lpt) as (_ & _ & Hcam & _).
    rewrite (loop_body_control callback inp p lpt).
    pose proof (apply_stop_running (it_stop inp)
                  (fst (fst (fst (loop_body callback inp p lpt)))))
      as Hflag.
    pose proof (apply_stop_effect (it_stop inp)
                  (fst (fst (fst (loop_body callback inp p lpt)))))
      as (_ & _ & _ & _ & _ & Hcam2).
    rewrite Hkeep, Hrun in Hflag. rewrite Hcam in Hcam2.
    cbn [List.find]. unfold asks_exit.
    destruct (quits inp) eqn:Hq.
    + rewrite orb_true_r. cbn [fst snd]. rewrite Hflag, Hcam2.
      destruct (it_stop inp) eqn:Hs; cbn [fst snd]; rewrite ?Hs;
        split; reflexivity.
    + rewrite orb_false_r. destruct (it_stop inp) eqn:Hs.
      * destruct (it_capture inp); cbn [fst snd];
          rewrite run_loop_flag_cleared by exact Hflag; cbn [fst snd];
          rewrite Hflag, Hcam2, ?Hs; split; reflexivity.
      * destruct (IH (fst (apply_stop false
                             (fst (fst (fst (loop_body callback inp p
                                               lpt))))))
                    (snd (fst (fst (loop_body callback inp p lpt))))
                    Hflag) as (H1 & H2).
        rewrite Hcam2 in H2.
        destruct (it_capture inp); cbn [fst snd]; rewrite H1, H2;
          split; reflexivity.
Qed.

(** A run in which the camera gives no frame and nobody calls [stop()]. *)
Lemma run_loop_without_frames (inputs : list iteration_input) :
  forall (p : processor) (last_process_time : Z),
    is_running p = true ->
    Forall (fun inp => it_capture inp = ReadFailed /\ it_stop inp = false)
           inputs ->
    run_loop callback inputs p last_process_time
    = (p, last_process_time,
       List.repeat LogCaptureFailed (length inputs), StillRunning).
Proof.
  induction inputs as [|inp rest IH]; intros p lpt Hrun Hall.
  - simpl. now rewrite Hrun.
  - apply Forall_cons in Hall. destruct Hall as [[Hcap Hstop] Hrest].
    rewrite run_loop_cons by exact Hrun. cbv zeta.
    unfold loop_body. rewrite Hcap, Hstop. cbn [fst snd apply_stop].
    rewrite (IH p lpt Hrun Hrest). reflexivity.
Qed.

End AfterRun.

(** X12.  What a run leaves of the flag and of the camera: when it ends
    because [stop()] was called the flag is cleared and the handle, if
    any, is closed; when it ends on the key [q] in a pass without [stop()]
    the flag is still set and the camera is what it was, not released; and
    as long as no pass asks for the end both are untouched. *)
Theorem run_leaves_flag_and_camera (callback : callback_fn)
  (started_at : Z) (inputs : list iteration_input) (p : processor) :
  let q := fst (fst (fst (run_recognition callback started_at inputs p))) in
  is_running q
  = match List.find asks_exit inputs with
    | Some inp => negb (it_stop inp)
    | None => true
    end
  /\ camera q
     = match List.find asks_exit inputs with
       | Some inp =>
           if it_stop inp then option_map release (camera p) else camera p
       | None => camera p
       end.
Proof.
  unfold run_recognition.
  exact (run_loop_leaves callback inputs (set_is_running true p) started_at
           eq_refl).
Qed.

(** X13.  While the camera gives no frame the loop does not sleep: a run
    whose passes all fail to capture, with no call of [stop()], only logs
    the failure once per pass, leaves the processor as it was apart from
    the flag, and goes on. *)
Theorem failed_captures_never_sleep (callback : callback_fn)
  (started_at : Z) (inputs : list iteration_input) (p : processor) :
  Forall (fun inp => it_capture inp = ReadFailed /\ it_stop inp = false)
         inputs ->
  run_recognition callback started_at inputs p
  = (set_is_running true p, started_at,
     List.repeat LogCaptureFailed (length inputs), StillRunning)
  /\ ~ In Sleep (snd (fst (run_recognition callback started_at inputs p))).
Proof.
  intros Hall. unfold run_recognition.
  rewrite (run_loop_without_frames callback inputs (set_is_running true p)
             started_at eq_refl Hall).
  split; [reflexivity|]. cbn [fst snd]. intros Hin.
  apply List.repeat_spec in Hin. discriminate Hin.
Qed.

Lemma failed_captures_never_sleep_witness :
  run_recognition always_returns 0
    [failed_pass 1000000; failed_pass 1000001; failed_pass 1000002]
    demo_processor
  = (set_is_running true demo_processor, 0,
     [LogCaptureFailed; LogCaptureFailed; LogCaptureFailed], StillRunning)
  /\ ~ In Sleep
       (snd (fst (run_recognition always_returns 0
                    [failed_pass 1000000; failed_pass 1000001;
                     failed_pass 1000002] demo_processor))).
Proof.
  apply (failed_captures_never_sleep always_returns 0
           [failed_pass 1000000; failed_pass 1000001; failed_pass 1000002]
           demo_processor).
  repeat constructor.
Defined.


(** ** Which files a match cycle opens *)

Lemma opened_app (a b : list action) : opened (a ++ b) = opened a ++ opened b.
Proof. unfold opened. apply omap_app. Qed.

Lemma scan_opens_references (env : cycle_env) (dir : string)
  (frame_bytes : bytes) (files : list string) :
  Forall (fun path => exists face_file,
            In face_file files /\ is_reference face_file = true
            /\ path = Str.join dir face_file)
         (opened (snd (scan_faces env dir frame_bytes files))).
Proof.
  induction files as [|f files IH]; [constructor|].
  assert (Hrest :
    Forall (fun path => exists face_file,
              In face_file (f :: files) /\ is_reference face_file = true
              /\ path = Str.join dir face_file)
           (opened (snd (scan_faces env dir frame_bytes files)))).
  { eapply Forall_impl; [exact IH|].
    intros path (g & Hin & Hg). exists g. split; [now right | exact Hg]. }
  cbn [scan_faces]. destruct (is_reference f) eqn:Href; cbn [negb];
    [|exact Hrest].
  assert (Hf : exists face_file,
             In face_file (f :: files) /\ is_reference face_file = true
             /\ Str.join dir f = Str.join dir face_file)
    by (exists f; split; [now left | now split]).
  destruct (read_file env (Str.join dir f)) as [stored|e]; cbn [snd].
  - destruct (compare_faces env frame_bytes stored) as [[|s l]|e];
      unfold then_; cbn [fst snd]; rewrite ?opened_app;
      try (apply Forall_app; split; [|exact Hrest]);
      repeat constructor; exact Hf.
  - repeat constructor. exact Hf.
Qed.

(** X14.  A match cycle opens no file but references of the listing: every
    path it reads is the faces directory joined with an entry of the
    listing whose name ends in one of the image extensions. *)
Theorem only_references_are_opened (env : cycle_env) (p : processor)
  (fr : frame) (files : list string) :
  listdir env (faces_directory p) = Ok files ->
  Forall (fun path => exists face_file,
            In face_file files /\ is_reference face_file = true
            /\ path = Str.join (faces_directory p) face_file)
         (opened (snd (compare_with_stored_faces env p fr))).
Proof.
  intros Hls. unfold compare_with_stored_faces. rewrite Hls.
  destruct (imencode env fr) as [frame_bytes|]; [|constructor].
  pose proof (scan_opens_references env (faces_directory p) frame_bytes
                files) as H.
  destruct (scan_faces env (faces_directory p) frame_bytes files)
    as [[r|e] acts]; cbn [fst snd] in *; [exact H|].
  rewrite opened_app. apply Forall_app. split; [exact H | constructor].
Qed.

Lemma only_references_are_opened_witness :
  Forall (fun path => exists face_file,
            In face_file demo_listing /\ is_reference face_file = true
            /\ path = Str.join (faces_directory demo_processor) face_file)
         (opened (snd (compare_with_stored_faces demo_env demo_processor
                         demo_frame))).
Proof.
  apply (only_references_are_opened demo_env demo_processor demo_frame
           demo_listing).
  reflexivity.
Defined.
